(** * The lock-free threaded prime sieve of [PrimeCPP_PAR/PrimeCPP_Threaded.cpp]

    The class [prime_sieve] keeps one [char] per odd number below [Size];
    [runSieve()] starts [Threads] runners that strike composites in the shared
    vector without locks.  The development below embeds the class as a
    transition system: the shared vector, plus one record of locals per
    runner; a schedule picks which runner performs its next access.

    Modelling conventions.
    - [uint64_t] values are integers reduced modulo [2^64] where the source
      computes them ([u64]); [int64_t] arithmetic is written without
      reduction, signed overflow being undefined in C++.
    - [vector<char>::operator[]] is unchecked: an access outside the vector is
      undefined behaviour and is the [None] of [vec_get] / [vec_set].
    - [(int) sqrt(Size)] is taken to be the integer square root, which it is
      for [Size < 2^52] (the double holds [Size] exactly and the correctly
      rounded root never reaches the next integer).  Results about runs are
      stated for limits in that range.
    - Each read and each write of one cell is indivisible, the precondition the
      source comment spells out for its choice of [char]. *)

From Stdlib Require Import ZArith Znumtheory Lia List Bool Uint63 PArray.
From stdpp Require Import base option list list_numbers numbers strings.

#[local] Open Scope Z_scope.

(** ** Machine integers and the unchecked vector *)

Definition u64 (z : Z) : Z := z mod 2 ^ 64.

Definition vec_get (v : list Z) (i : Z) : option Z :=
  if decide (0 ≤ i) then v !! Z.to_nat i else None.

Definition vec_set (v : list Z) (i : Z) (x : Z) : option (list Z) :=
  if decide (0 ≤ i < Z.of_nat (length v))
  then Some (<[Z.to_nat i := x]> v)
  else None.

(** ** The sieve object *)

Record prime_sieve := mk_sieve {
  Bits : list Z;     (* vector<char>: 1 == prime, 0 == not; cell i is 2i+1 *)
  Size : Z;          (* uint64_t *)
  Threads : Z        (* uint64_t *)
}.

(** [prime_sieve(n, t) : Bits(n >> 1, 1), Size(n), Threads(t) { Bits[0] = 0; }] *)
Definition prime_sieve_ctor (n t : Z) : option prime_sieve :=
  bits ← vec_set (replicate (Z.to_nat (n ≫ 1)) 1) 0 0;
  Some (mk_sieve bits n t).

(** [countPrimes]: [count = (Size >= 2)], then one more for every non-zero
    cell of index 1 and above. *)
Definition countPrimes (s : prime_sieve) : Z :=
  fold_left (λ count c, if decide (c = 0) then count else count + 1)
            (drop 1 (Bits s))
            (if decide (2 ≤ Size s) then 1 else 0).

(** [isPrime]: [if (n & 1) return Bits[n >> 1]; else return false;] *)
Definition isPrime (s : prime_sieve) (n : Z) : option bool :=
  if decide (Z.land n 1 = 0) then Some false
  else c ← vec_get (Bits s) (n ≫ 1); Some (bool_decide (c ≠ 0)).

(** [validateResults]: the historical table, as the ordered map it is. *)
Definition resultsDictionary : list (Z * Z) :=
  [ (10, 4); (100, 25); (1000, 168); (10000, 1229); (100000, 9592);
    (1000000, 78498); (10000000, 664579); (100000000, 5761455);
    (1000000000, 50847534); (10000000000, 455052511) ].

Fixpoint find (key : Z) (m : list (Z * Z)) : option Z :=
  match m with
  | [] => None
  | (k, v) :: m' => if decide (k = key) then Some v else find key m'
  end.

Definition validateResults (s : prime_sieve) : bool :=
  match find (Size s) resultsDictionary with
  | None => false
  | Some expected => bool_decide (expected = countPrimes s)
  end.

(** ** One runner: [runSieve(int64_t index)]

    The locals of a runner and the place it has reached.  A step performs the
    code up to and including the next access to [Bits]. *)

Inductive place :=
  | AtWhile      (* about to test [factor <= q] *)
  | AtFor3       (* [for (num = 9; num < Size; num += 6)] of index 0 *)
  | AtIfA        (* about to read [Bits[factor >> 1]], first of the pair *)
  | AtForA       (* striking the multiples of the first factor *)
  | AtIfB        (* about to read [Bits[factor >> 1]] after [factor += 2] *)
  | AtForB       (* striking the multiples of the second factor *)
  | AtDone.      (* left the while loop *)

#[global] Instance place_eq_dec : EqDecision place.
Proof. solve_decision. Defined.

Record runner := mk_runner {
  at_ : place;
  index : Z;         (* int64_t *)
  factor : Z;        (* int64_t *)
  num : Z            (* uint64_t *)
}.

(** [int64_t factor = 6 * index - 1;] on entry. *)
Definition runner_start (i : Z) : runner := mk_runner AtWhile i (6 * i - 1) 0.

(** [index += Threads; factor = 6 * index - 1;] *)
Definition advance (threads : Z) (r : runner) : runner :=
  mk_runner AtWhile (index r + threads) (6 * (index r + threads) - 1) (num r).

Section Runner.
Variables size threads : Z.

(** [int64_t q = (int) sqrt(Size);] *)
Definition q : Z := Z.sqrt size.

Definition runner_step (bits : list Z) (r : runner) : option (list Z * runner) :=
  match at_ r with
  | AtWhile =>
      if decide (factor r ≤ q) then
        if decide (index r = 0)
        then Some (bits, mk_runner AtFor3 (index r) (factor r) 9)
        else Some (bits, mk_runner AtIfA (index r) (factor r) (num r))
      else Some (bits, mk_runner AtDone (index r) (factor r) (num r))
  | AtFor3 =>
      if decide (num r < size) then
        bits' ← vec_set bits (num r ≫ 1) 0;
        Some (bits', mk_runner AtFor3 (index r) (factor r) (u64 (num r + 6)))
      else Some (bits, advance threads r)
  | AtIfA =>
      c ← vec_get bits (factor r ≫ 1);
      if decide (c = 1)
      then Some (bits, mk_runner AtForA (index r) (factor r) (u64 (factor r * factor r)))
      else Some (bits, mk_runner AtIfB (index r) (factor r + 2) (num r))
  | AtForA =>
      if decide (num r < size) then
        bits' ← vec_set bits (num r ≫ 1) 0;
        Some (bits', mk_runner AtForA (index r) (factor r) (u64 (num r + u64 (2 * factor r))))
      else Some (bits, mk_runner AtIfB (index r) (factor r + 2) (num r))
  | AtIfB =>
      c ← vec_get bits (factor r ≫ 1);
      if decide (c = 1)
      then Some (bits, mk_runner AtForB (index r) (factor r) (u64 (factor r * factor r)))
      else Some (bits, advance threads r)
  | AtForB =>
      if decide (num r < size) then
        bits' ← vec_set bits (num r ≫ 1) 0;
        Some (bits', mk_runner AtForB (index r) (factor r) (u64 (num r + u64 (2 * factor r))))
      else Some (bits, advance threads r)
  | AtDone => Some (bits, r)
  end.
End Runner.

(** ** The pool: [runSieve()]

    [threadPool] holds one runner per index [0 .. Threads-1]; all of them work
    on the same [Bits].  [step st tid] lets runner [tid] perform its next
    step; a [tid] outside the pool, like a finished runner, changes nothing. *)

Record state := mk_state {
  shared : prime_sieve;
  pool : list runner
}.

Definition spawn (s : prime_sieve) : state :=
  mk_state s (runner_start <$> seqZ 0 (Threads s)).

Definition step (st : state) (tid : nat) : option state :=
  match pool st !! tid with
  | None => Some st
  | Some r =>
      let s := shared st in
      '(bits', r') ← runner_step (Size s) (Threads s) (Bits s) r;
      Some (mk_state (mk_sieve bits' (Size s) (Threads s)) (<[tid := r']> (pool st)))
  end.

Fixpoint exec (sched : list nat) (st : state) : option state :=
  match sched with
  | [] => Some st
  | tid :: sched' => st' ← step st tid; exec sched' st'
  end.

(** [for (auto &th : threadPool) th.join();] returns once every runner has
    left its loop. *)
Definition joined (st : state) : bool :=
  forallb (λ r, bool_decide (at_ r = AtDone)) (pool st).

(** Construct, run under a schedule, join.  [None] when the construction or
    a step is undefined, or when the schedule stops before every runner is
    done. *)
Definition run (limit workers : Z) (sched : list nat) : option prime_sieve :=
  s ← prime_sieve_ctor limit workers;
  st ← exec sched (spawn s);
  if joined st then Some (shared st) else None.

(** Schedules used for examples: every runner in turn, [k] rounds. *)
Definition round_robin (workers : nat) (k : nat) : list nat :=
  concat (replicate k (seq 0 workers)).

(** ** Reference primality, by trial division *)

Fixpoint no_divisor_from (fuel : nat) (d n : Z) : bool :=
  match fuel with
  | O => true
  | S fuel' =>
      if decide (n < d * d) then true
      else if decide (n mod d = 0) then false
      else no_divisor_from fuel' (d + 1) n
  end.

Definition trial_division (n : Z) : bool :=
  bool_decide (2 ≤ n) && no_divisor_from (Z.to_nat (Z.sqrt n)) 2 n.

(** * Facts about the definitions *)

(** ** Primality and trial division *)

Section TrialDivision.

Lemma no_divisor_from_true fuel d n k :
  no_divisor_from fuel d n = true →
  0 < d → d ≤ k < d + Z.of_nat fuel → k * k ≤ n → ¬ (k | n).
Proof.
  revert d. induction fuel as [|fuel IH]; intros d Hrun Hd Hk Hkk; [lia|].
  cbn [no_divisor_from] in Hrun.
  destruct (decide (n < d * d)); [nia|].
  destruct (decide (n mod d = 0)) as [|Hmod]; [discriminate|].
  destruct (decide (k = d)) as [->|].
  - intros Hdiv. apply Hmod. by apply Z.mod0_divide.
  - apply (IH (d + 1)); [done | lia | lia | done].
Qed.

Lemma no_divisor_from_false fuel d n :
  no_divisor_from fuel d n = false →
  0 < d → ∃ k, d ≤ k ∧ k * k ≤ n ∧ (k | n).
Proof.
  revert d. induction fuel as [|fuel IH]; intros d Hrun Hd; [discriminate|].
  cbn [no_divisor_from] in Hrun.
  destruct (decide (n < d * d)); [discriminate|].
  destruct (decide (n mod d = 0)) as [Hmod|].
  - exists d. split_and!; [lia | lia |].
    apply Z.mod_divide; [lia | done].
  - destruct (IH (d + 1)) as (k & ? & ? & ?); [done | lia |].
    exists k. split_and!; [lia | done | done].
Qed.

Lemma trial_division_prime n : trial_division n = true ↔ Z.prime n.
Proof.
  unfold trial_division. split.
  - intros [Hge Hrun]%andb_prop. apply bool_decide_eq_true in Hge.
    split; [lia|]. intros k Hk [j Hj].
    assert (Hjk : 1 < j < n) by nia.
    assert (Hroot : ∀ a, 1 < a → a * a ≤ n → (a | n) → False).
    { intros a Ha Haa. apply (no_divisor_from_true _ _ _ a Hrun); [lia | | done].
      split; [lia|]. rewrite Z2Nat.id by apply Z.sqrt_nonneg.
      assert (a ≤ Z.sqrt n) by (apply Z.sqrt_le_square; lia). lia. }
    destruct (decide (k ≤ j)).
    + apply (Hroot k); [lia | nia | by exists j].
    + apply (Hroot j); [lia | nia | exists k; lia].
  - intros [Hgt Hnd]. apply andb_true_intro. split; [apply bool_decide_eq_true; lia|].
    destruct (no_divisor_from _ 2 n) eqn:Hrun; [done|].
    apply no_divisor_from_false in Hrun as (k & ? & ? & ?); [|lia].
    destruct (Hnd k); [nia | done].
Qed.

Lemma Zprime_dec n : {Z.prime n} + {¬ Z.prime n}.
Proof.
  destruct (trial_division n) eqn:H; [left | right].
  - by apply trial_division_prime.
  - intros Hp%trial_division_prime. congruence.
Defined.

(** A number that is not prime has a divisor up to its square root. *)
Lemma composite_small_divisor m :
  2 ≤ m → ¬ Z.prime m → ∃ k, 2 ≤ k ∧ k * k ≤ m ∧ (k | m).
Proof.
  intros Hm Hnp. destruct (trial_division m) eqn:Htd.
  { destruct Hnp. by apply trial_division_prime. }
  unfold trial_division in Htd. apply andb_false_iff in Htd as [Htd|Htd].
  { apply bool_decide_eq_false in Htd. lia. }
  apply no_divisor_from_false in Htd as (k & ? & ? & ?); [|lia]. eauto.
Qed.

Lemma prime_factor m : 2 ≤ m → ∃ p, Z.prime p ∧ (p | m).
Proof.
  intros Hm. assert (H0 : 0 ≤ m) by lia. revert Hm.
  pattern m. apply Z_lt_induction; [|done]. clear m H0.
  intros m IH Hm.
  destruct (Zprime_dec m) as [|Hnp]; [exists m; split; [done | apply Z.divide_refl]|].
  destruct (composite_small_divisor m Hm Hnp) as (k & Hk & Hkk & Hdiv).
  destruct (IH k) as (p & Hp & Hpk); [nia | lia |].
  exists p. split; [done | by etrans].
Qed.

Lemma prime_factor_sqrt m :
  2 ≤ m → ¬ Z.prime m → ∃ p, Z.prime p ∧ (p | m) ∧ p * p ≤ m.
Proof.
  intros Hm Hnp.
  destruct (composite_small_divisor m Hm Hnp) as (k & Hk & Hkk & Hdiv).
  destruct (prime_factor k Hk) as (p & Hp & Hpk).
  exists p. split_and!; [done | by etrans |].
  assert (2 ≤ p) by (by apply Z.prime_ge_2).
  assert (p ≤ k) by (apply Z.divide_pos_le; [lia | done]). nia.
Qed.

Lemma product_not_prime a b : 1 < a → 1 < b → ¬ Z.prime (a * b).
Proof.
  intros Ha Hb [_ Hp]. apply (Hp a); [nia|]. exists b. lia.
Qed.

(** Beyond 3, primes lie on the wheel: [6k-1] or [6k+1]. *)
Lemma prime_on_wheel p :
  Z.prime p → 5 ≤ p → ∃ k, 1 ≤ k ∧ (p = 6 * k - 1 ∨ p = 6 * k + 1).
Proof.
  intros [_ Hp] H5.
  assert (H2 : ¬ (2 | p)) by (apply Hp; lia).
  assert (H3 : ¬ (3 | p)) by (apply Hp; lia).
  assert (Hr : p mod 6 = 1 ∨ p mod 6 = 5).
  { pose proof (Z.mod_pos_bound p 6 ltac:(lia)).
    pose proof (Z.div_mod p 6 ltac:(lia)) as Hdm.
    destruct (decide (p mod 6 = 1)); [by left|].
    destruct (decide (p mod 6 = 5)); [by right|].
    exfalso.
    assert (Hc : p mod 6 = 0 ∨ p mod 6 = 2 ∨ p mod 6 = 3 ∨ p mod 6 = 4) by lia.
    destruct Hc as [Hc|[Hc|[Hc|Hc]]]; rewrite Hc in Hdm.
    - apply H2. exists (3 * (p / 6)). lia.
    - apply H2. exists (3 * (p / 6) + 1). lia.
    - apply H3. exists (2 * (p / 6) + 1). lia.
    - apply H2. exists (3 * (p / 6) + 2). lia. }
  pose proof (Z.div_mod p 6 ltac:(lia)) as Hdm.
  destruct Hr as [Hr|Hr]; rewrite Hr in Hdm.
  - exists (p / 6). split; [lia | right; lia].
  - exists (p / 6 + 1). split; [lia | left; lia].
Qed.

End TrialDivision.

(** ** Small facts on the machine operations *)

(** Linear arithmetic with division and remainder by literals. *)
Ltac dlia := Z.to_euclidean_division_equations; lia.

Lemma shiftr_1 z : z ≫ 1 = z / 2.
Proof. by rewrite Z.shiftr_div_pow2 by lia. Qed.

Lemma land_1 z : Z.land z 1 = z mod 2.
Proof. change 1 with (Z.ones 1) at 1. by rewrite Z.land_ones by lia. Qed.

Lemma u64_small z : 0 ≤ z < 2 ^ 64 → u64 z = z.
Proof. intros. unfold u64. by apply Z.mod_small. Qed.

Lemma q_spec n : 0 ≤ n → q n * q n ≤ n < (q n + 1) * (q n + 1).
Proof. intros Hn. unfold q. pose proof (Z.sqrt_spec n Hn) as H. cbv zeta in H. lia. Qed.

Lemma q_nonneg n : 0 ≤ q n.
Proof. apply Z.sqrt_nonneg. Qed.


(** ** Cells only go from 1 to 0 *)

(** [bits'] is [bits] with some more cells struck. *)
Definition no_reset (bits bits' : list Z) : Prop :=
  length bits' = length bits ∧
  ∀ i, bits' !! i = bits !! i ∨ bits' !! i = Some 0.

Lemma no_reset_refl bits : no_reset bits bits.
Proof. split; [done | by left]. Qed.

Lemma no_reset_trans b1 b2 b3 : no_reset b1 b2 → no_reset b2 b3 → no_reset b1 b3.
Proof.
  intros [Hl1 H1] [Hl2 H2]. split; [congruence|].
  intros i. destruct (H2 i) as [->|]; [apply H1 | by right].
Qed.

Lemma no_reset_zero bits bits' i :
  no_reset bits bits' → bits !! i = Some 0 → bits' !! i = Some 0.
Proof. intros [_ H] H0. destruct (H i); congruence. Qed.

Lemma vec_set_zero bits i bits' :
  vec_set bits i 0 = Some bits' →
  0 ≤ i < Z.of_nat (length bits) ∧ bits' = <[Z.to_nat i := 0]> bits ∧
  no_reset bits bits' ∧ bits' !! Z.to_nat i = Some 0.
Proof.
  unfold vec_set. destruct (decide _) as [Hi|]; [|discriminate].
  intros [= <-]. split_and!; [lia | lia | done | |].
  - split; [apply length_insert|]. intros j.
    destruct (decide (j = Z.to_nat i)) as [->|].
    + right. apply list_lookup_insert_eq. lia.
    + left. by apply list_lookup_insert_ne.
  - apply list_lookup_insert_eq. lia.
Qed.

Lemma vec_set_in_range bits i x :
  0 ≤ i < Z.of_nat (length bits) → vec_set bits i x = Some (<[Z.to_nat i := x]> bits).
Proof. intros. unfold vec_set. by rewrite decide_True. Qed.

Lemma vec_get_in_range bits i :
  0 ≤ i < Z.of_nat (length bits) → ∃ c, vec_get bits i = Some c.
Proof.
  intros. unfold vec_get. rewrite decide_True by lia.
  destruct (lookup_lt_is_Some_2 bits (Z.to_nat i)) as [c Hc]; [lia | eauto].
Qed.

(** ** What a run maintains *)

(** The cell of the odd number [m] holds 0. *)
Definition cleared (bits : list Z) (m : Z) : Prop :=
  bits !! Z.to_nat (m ≫ 1) = Some 0.

(** Every odd multiple of [p] from [p*p] on, below [hi] and below the limit,
    is cleared. *)
Definition struck (n : Z) (bits : list Z) (p hi : Z) : Prop :=
  ∀ m, (p | m) → m mod 2 = 1 → p * p ≤ m → m < hi → m < n → cleared bits m.

Record bits_ok (n : Z) (bits : list Z) : Prop := {
  bits_length : Z.of_nat (length bits) = n ≫ 1;
  bits_bool : ∀ i c, bits !! i = Some c → c = 0 ∨ c = 1;
  bits_primes : ∀ i, (i < length bits)%nat → Z.prime (2 * Z.of_nat i + 1) → bits !! i = Some 1;
  bits_one : bits !! 0%nat = Some 0
}.

(** [num] is an odd multiple [factor * c] with [c >= factor]. *)
Definition on_multiples (r : runner) : Prop :=
  ∃ c, num r = factor r * c ∧ factor r ≤ c ∧ c mod 2 = 1 ∧ num r < 2 ^ 53.

(** Where the locals of runner [tid] can be. *)
Definition runner_ok (n t : Z) (tid : nat) (r : runner) : Prop :=
  0 ≤ index r ∧ index r mod t = Z.of_nat tid ∧
  match at_ r with
  | AtWhile => factor r = 6 * index r - 1
  | AtFor3 => index r = 0 ∧ num r mod 6 = 3 ∧ 9 ≤ num r < 2 ^ 53
  | AtIfA => 1 ≤ index r ∧ factor r = 6 * index r - 1 ∧ factor r ≤ q n
  | AtForA => 1 ≤ index r ∧ factor r = 6 * index r - 1 ∧ factor r ≤ q n ∧ on_multiples r
  | AtIfB => 1 ≤ index r ∧ factor r = 6 * index r + 1 ∧ factor r - 2 ≤ q n
  | AtForB => 1 ≤ index r ∧ factor r = 6 * index r + 1 ∧ factor r - 2 ≤ q n ∧ on_multiples r
  | AtDone => factor r = 6 * index r - 1 ∧ q n < factor r
  end.

(** The rounds a runner has behind it once its index is [idx]: the multiples
    of 3 if it started at 0, and both wheel factors of every earlier index
    of its own. *)
Definition rounds_done (n t : Z) (bits : list Z) (idx : Z) : Prop :=
  (idx mod t = 0 → 0 < idx → struck n bits 3 n) ∧
  ∀ k, 1 ≤ k < idx → k mod t = idx mod t →
    (Z.prime (6 * k - 1) → struck n bits (6 * k - 1) n) ∧
    (Z.prime (6 * k + 1) → struck n bits (6 * k + 1) n).

(** What a runner has struck so far, by the place it is at. *)
Definition progress (n t : Z) (bits : list Z) (r : runner) : Prop :=
  rounds_done n t bits (index r) ∧
  match at_ r with
  | AtWhile | AtIfA | AtDone => True
  | AtFor3 => struck n bits 3 (num r)
  | AtForA => struck n bits (factor r) (num r)
  | AtIfB => Z.prime (factor r - 2) → struck n bits (factor r - 2) n
  | AtForB => (Z.prime (factor r - 2) → struck n bits (factor r - 2) n) ∧
              struck n bits (factor r) (num r)
  end.

Record inv (n t : Z) (st : state) : Prop := {
  inv_size : Size (shared st) = n;
  inv_threads : Threads (shared st) = t;
  inv_bits : bits_ok n (Bits (shared st));
  inv_pool : Z.of_nat (length (pool st)) = t;
  inv_runners : ∀ tid r, pool st !! tid = Some r →
      runner_ok n t tid r ∧ progress n t (Bits (shared st)) r
}.

Section Preservation.
Variables n t : Z.
Hypothesis limit_range : 2 ≤ n < 2 ^ 52.
Hypothesis workers_pos : 1 ≤ t.

Lemma q_small : q n < 2 ^ 26 + 1.
Proof. pose proof (q_spec n ltac:(lia)). pose proof (q_nonneg n). nia. Qed.

Lemma cleared_no_reset bits bits' m :
  no_reset bits bits' → cleared bits m → cleared bits' m.
Proof. unfold cleared. intros. by eapply no_reset_zero. Qed.

Lemma struck_no_reset bits bits' p hi :
  no_reset bits bits' → struck n bits p hi → struck n bits' p hi.
Proof. unfold struck. eauto using cleared_no_reset. Qed.

Lemma struck_start bits p : struck n bits p (p * p).
Proof. unfold struck. lia. Qed.

Lemma struck_full bits p hi : n ≤ hi → struck n bits p hi → struck n bits p n.
Proof. unfold struck. intros ? H m ?????. apply H; [done..|lia|done]. Qed.

Lemma rounds_done_no_reset bits bits' idx :
  no_reset bits bits' → rounds_done n t bits idx → rounds_done n t bits' idx.
Proof.
  intros Hnr [H3 Hk]. split; [eauto using struck_no_reset|].
  intros k ??. destruct (Hk k) as [??]; [done..|].
  split; eauto using struck_no_reset.
Qed.

Lemma progress_no_reset bits bits' r :
  no_reset bits bits' → progress n t bits r → progress n t bits' r.
Proof.
  intros Hnr [Hrd Hat]. split; [by eapply rounds_done_no_reset|].
  destruct (at_ r); try done; intuition eauto using struck_no_reset.
Qed.

(** Striking the cell of an odd composite below the limit is a defined
    write and keeps the vector well-formed. *)
Lemma strike_composite bits m :
  bits_ok n bits → m mod 2 = 1 → 3 ≤ m < n → ¬ Z.prime m →
  ∃ bits', vec_set bits (m ≫ 1) 0 = Some bits' ∧
           bits_ok n bits' ∧ no_reset bits bits' ∧ cleared bits' m.
Proof.
  intros [Hlen Hbool Hpr Hone] Hodd Hm Hnp.
  rewrite shiftr_1 in Hlen.
  assert (Hi : 0 ≤ m ≫ 1 < Z.of_nat (length bits)) by (rewrite shiftr_1; dlia).
  exists (<[Z.to_nat (m ≫ 1) := 0]> bits).
  rewrite vec_set_in_range by done.
  destruct (vec_set_zero bits (m ≫ 1) _ (vec_set_in_range bits _ 0 Hi))
    as (_ & _ & Hnr & Hz).
  split_and!; [done | | done | done].
  split.
  - rewrite length_insert, shiftr_1. done.
  - intros i c. destruct (decide (i = Z.to_nat (m ≫ 1))) as [->|].
    + rewrite list_lookup_insert_eq by lia. intros [= <-]. by left.
    + rewrite list_lookup_insert_ne by done. apply Hbool.
  - intros i Hi' Hp. rewrite length_insert in Hi'.
    destruct (decide (i = Z.to_nat (m ≫ 1))) as [->|].
    + destruct Hnp. rewrite shiftr_1 in Hp.
      replace m with (2 * Z.of_nat (Z.to_nat (m / 2)) + 1) by dlia. done.
    + rewrite list_lookup_insert_ne by done. by apply Hpr.
  - eapply no_reset_zero; done.
Qed.

Lemma odd_mul a b : a mod 2 = 1 → b mod 2 = 1 → (a * b) mod 2 = 1.
Proof.
  rewrite !Zmod_odd, Z.odd_mul.
  destruct (Z.odd a), (Z.odd b); simpl; lia.
Qed.

Lemma odd_mul_inv a b : (a * b) mod 2 = 1 → a mod 2 = 1.
Proof.
  rewrite !Zmod_odd, Z.odd_mul.
  destruct (Z.odd a), (Z.odd b); simpl; lia.
Qed.

(** Between two consecutive odd multiples of [f] there is no other. *)
Lemma odd_multiple_unique f c m :
  0 < f → (f | m) → m mod 2 = 1 → c mod 2 = 1 →
  f * c ≤ m < f * c + 2 * f → m = f * c.
Proof.
  intros Hf [z ->] Hodd Hc Hm.
  apply odd_mul_inv in Hodd.
  assert (c ≤ z < c + 2) by nia.
  assert (z = c) by dlia. subst. lia.
Qed.

Lemma mod_add_self i : (i + t) mod t = i mod t.
Proof. replace (i + t) with (i + 1 * t) by lia. apply Z_mod_plus_full. Qed.

Lemma same_residue_close k i :
  k mod t = i mod t → i ≤ k < i + t → k = i.
Proof.
  intros Hmod Hk.
  pose proof (Z.div_mod k t ltac:(lia)) as Hdk.
  pose proof (Z.div_mod i t ltac:(lia)) as Hdi.
  rewrite Hmod in Hdk.
  assert (k / t - i / t = 0) by nia. nia.
Qed.

(** One write of a marking loop: the next odd multiple [f * c] of [f] is
    below the limit and gets struck. *)
Lemma strike_next bits f c :
  bits_ok n bits → 3 ≤ f → f mod 2 = 1 → c mod 2 = 1 → f ≤ c → f * c < n →
  struck n bits f (f * c) →
  ∃ bits', vec_set bits ((f * c) ≫ 1) 0 = Some bits' ∧
           bits_ok n bits' ∧ no_reset bits bits' ∧
           struck n bits' f (f * c + 2 * f).
Proof.
  intros Hok Hf Hfo Hco Hfc Hlt Hst.
  destruct (strike_composite bits (f * c)) as (bits' & Hset & Hok' & Hnr & Hcl);
    [done | by apply odd_mul | nia | apply product_not_prime; lia |].
  exists bits'. split_and!; [done..|].
  intros m Hdiv Hodd Hlo Hhi Hn.
  destruct (decide (m < f * c)).
  - eapply cleared_no_reset; [done|]. by apply Hst.
  - rewrite (odd_multiple_unique f c m); [done | lia | done | done | done | lia].
Qed.

Lemma rounds_done_next bits idx :
  1 ≤ idx → rounds_done n t bits idx →
  (Z.prime (6 * idx - 1) → struck n bits (6 * idx - 1) n) →
  (Z.prime (6 * idx + 1) → struck n bits (6 * idx + 1) n) →
  rounds_done n t bits (idx + t).
Proof.
  intros Hidx [H3 Hk] Ha Hb. split.
  - rewrite mod_add_self. intros. apply H3; [done | lia].
  - intros k Hrange. rewrite mod_add_self. intros Hmod.
    destruct (decide (k < idx)); [apply Hk; [lia | done]|].
    assert (k = idx) as -> by (apply same_residue_close; [done | lia]).
    done.
Qed.

Lemma rounds_done_first bits hi :
  n ≤ hi → struck n bits 3 hi → rounds_done n t bits (0 + t).
Proof.
  intros Hhi Hst. split.
  - intros _ _. by eapply struck_full.
  - intros k Hk. rewrite mod_add_self, Z.mod_0_l by lia.
    rewrite Z.mod_small by lia. lia.
Qed.

(** A cell read as 0 is not the cell of a prime. *)
Lemma read_zero_not_prime bits f :
  bits_ok n bits → f mod 2 = 1 → 0 ≤ f →
  vec_get bits (f ≫ 1) = Some 0 → ¬ Z.prime f.
Proof.
  intros Hok Hodd Hf Hget Hp. unfold vec_get in Hget.
  rewrite decide_True, shiftr_1 in Hget by (rewrite ?shiftr_1; dlia).
  rewrite (bits_primes _ _ Hok) in Hget; [discriminate | |].
  - by eapply lookup_lt_Some.
  - replace (2 * Z.of_nat (Z.to_nat (f / 2)) + 1) with f by dlia. done.
Qed.

Lemma read_in_range bits f :
  bits_ok n bits → f mod 2 = 1 → 0 ≤ f < n →
  ∃ c, vec_get bits (f ≫ 1) = Some c ∧ (c = 0 ∨ c = 1).
Proof.
  intros Hok Hodd Hf.
  destruct (vec_get_in_range bits (f ≫ 1)) as [c Hc].
  { rewrite (bits_length _ _ Hok), !shiftr_1. dlia. }
  exists c. split; [done|]. unfold vec_get in Hc.
  destruct (decide _); [|done]. by eapply bits_bool.
Qed.

(** What one step of a runner is claimed to achieve. *)
Definition step_ok (bits : list Z) (tid : nat) (r : runner) : Prop :=
  ∃ bits' r', runner_step n t bits r = Some (bits', r') ∧
              bits_ok n bits' ∧ no_reset bits bits' ∧
              runner_ok n t tid r' ∧ progress n t bits' r'.

Lemma step_ok_intro bits tid r bits' r' :
  runner_step n t bits r = Some (bits', r') →
  bits_ok n bits' → no_reset bits bits' →
  runner_ok n t tid r' → progress n t bits' r' → step_ok bits tid r.
Proof. intros. exists bits', r'. done. Qed.

Section OneStep.
Variables (bits : list Z) (tid : nat) (idx f nm : Z).
Hypothesis Hok : bits_ok n bits.

Let qn := q_spec n ltac:(lia).
Let q0 := q_nonneg n.
Let qs := q_small.

Lemma step_while :
  let r := mk_runner AtWhile idx f nm in
  runner_ok n t tid r → progress n t bits r → step_ok bits tid r.
Proof.
  intros r (Hidx & Hres & Hf) [Hrd _]. simpl in *.
  destruct (decide (f ≤ q n)) as [Hle|Hgt] eqn:Hd1.
  - destruct (decide (idx = 0)) as [Hz|Hnz] eqn:Hd2.
    + eapply step_ok_intro with (bits' := bits);
        [unfold runner_step; simpl; rewrite Hd1, Hd2; reflexivity
        | done | apply no_reset_refl | |].
      * unfold runner_ok; simpl; split_and!; try done; lia.
      * split; [done|]. simpl. unfold struck. lia.
    + eapply step_ok_intro with (bits' := bits);
        [unfold runner_step; simpl; rewrite Hd1, Hd2; reflexivity
        | done | apply no_reset_refl | |].
      * unfold runner_ok; simpl; split_and!; try done; lia.
      * by split.
  - eapply step_ok_intro with (bits' := bits);
      [unfold runner_step; simpl; rewrite Hd1; reflexivity
      | done | apply no_reset_refl | |].
    + unfold runner_ok; simpl; split_and!; try done; lia.
    + by split.
Qed.

Lemma step_for3 :
  let r := mk_runner AtFor3 idx f nm in
  runner_ok n t tid r → progress n t bits r → step_ok bits tid r.
Proof.
  intros r (Hidx & Hres & Hz & Hmod & Hnm) [Hrd Hst]. simpl in *.
  destruct (decide (nm < n)) as [Hlt|Hge] eqn:Hd.
  - assert (Hc : nm = 3 * (nm / 3)) by dlia.
    destruct (strike_next bits 3 (nm / 3)) as (bits' & Hset & Hok' & Hnr & Hst');
      [done | lia | done | dlia | dlia | lia | by rewrite <- Hc |].
    rewrite <- Hc in Hset, Hst'.
    eapply step_ok_intro with (bits' := bits');
      [unfold runner_step; simpl; rewrite Hd, Hset; reflexivity | done | done | |].
    + rewrite u64_small by lia.
      unfold runner_ok; simpl; split_and!; try done; try lia; dlia.
    + rewrite u64_small by lia. split; simpl.
      * by eapply rounds_done_no_reset.
      * by replace (nm + 6) with (nm + 2 * 3) by lia.
  - eapply step_ok_intro with (bits' := bits);
      [unfold runner_step; simpl; rewrite Hd; reflexivity
      | done | apply no_reset_refl | |].
    + unfold runner_ok, advance; simpl; split_and!; [lia | by rewrite mod_add_self | done].
    + split; [|done]. unfold advance; simpl. subst idx.
      apply (rounds_done_first bits nm); [lia | done].
Qed.

Lemma step_ifA :
  let r := mk_runner AtIfA idx f nm in
  runner_ok n t tid r → progress n t bits r → step_ok bits tid r.
Proof.
  intros r (Hidx & Hres & Hi & Hf & Hq) [Hrd _]. simpl in *.
  destruct (read_in_range bits f) as (c & Hget & Hc); [done | dlia | nia |].
  destruct (decide (c = 1)) as [->|Hne] eqn:Hd.
  - eapply step_ok_intro with (bits' := bits);
      [unfold runner_step; simpl; rewrite Hget; simpl; reflexivity
      | done | apply no_reset_refl | |].
    + rewrite u64_small by nia.
      unfold runner_ok; simpl; split_and!; try done.
      exists f. simpl. split_and!; [done | lia | dlia | nia].
    + rewrite u64_small by nia. split; [done|]. simpl. apply struck_start.
  - assert (c = 0) as -> by lia.
    eapply step_ok_intro with (bits' := bits);
      [unfold runner_step; simpl; rewrite Hget; simpl; reflexivity
      | done | apply no_reset_refl | |].
    + unfold runner_ok; simpl; split_and!; try done; lia.
    + split; [done|]. simpl. replace (f + 2 - 2) with f by lia.
      intros Hp. destruct (read_zero_not_prime bits f); [done | dlia | lia | done | done].
Qed.

Lemma step_mark (pl : place) :
  let r := mk_runner pl idx f nm in
  5 ≤ f ≤ q n + 2 → f mod 2 = 1 → on_multiples r → struck n bits f nm → nm < n →
  ∃ bits', vec_set bits (nm ≫ 1) 0 = Some bits' ∧
           bits_ok n bits' ∧ no_reset bits bits' ∧
           u64 (nm + u64 (2 * f)) = nm + 2 * f ∧
           on_multiples (mk_runner pl idx f (nm + 2 * f)) ∧
           struck n bits' f (nm + 2 * f).
Proof.
  intros r Hf Hodd (c & Hnm & Hfc & Hco & Hb) Hst Hlt. simpl in *. subst nm.
  destruct (strike_next bits f c) as (bits' & Hset & Hok' & Hnr & Hst');
    [done | lia | done | done | done | done | done |].
  exists bits'. split_and!; [done | done | done | | | done].
  - rewrite (u64_small (2 * f)) by lia. apply u64_small. nia.
  - exists (c + 2). simpl. split_and!; [lia | lia | dlia | nia].
Qed.

Lemma step_forA :
  let r := mk_runner AtForA idx f nm in
  runner_ok n t tid r → progress n t bits r → step_ok bits tid r.
Proof.
  intros r (Hidx & Hres & Hi & Hf & Hq & Hom) [Hrd Hst]. simpl in *.
  destruct (decide (nm < n)) as [Hlt|Hge] eqn:Hd.
  - destruct (step_mark AtForA) as (bits' & Hset & Hok' & Hnr & Hu & Hom' & Hst');
      [lia | dlia | done | done | done |].
    eapply step_ok_intro with (bits' := bits');
      [unfold runner_step; simpl; rewrite Hd, Hset; reflexivity | done | done | |].
    + rewrite Hu. unfold runner_ok; simpl; split_and!; done.
    + rewrite Hu. split; simpl; [by eapply rounds_done_no_reset | done].
  - eapply step_ok_intro with (bits' := bits);
      [unfold runner_step; simpl; rewrite Hd; reflexivity
      | done | apply no_reset_refl | |].
    + unfold runner_ok; simpl; split_and!; try done; lia.
    + split; [done|]. simpl. replace (f + 2 - 2) with f by lia.
      intros _. apply (struck_full bits f nm); [lia | done].
Qed.

Lemma step_ifB :
  let r := mk_runner AtIfB idx f nm in
  runner_ok n t tid r → progress n t bits r → step_ok bits tid r.
Proof.
  intros r (Hidx & Hres & Hi & Hf & Hq) [Hrd Hprev]. simpl in *.
  destruct (read_in_range bits f) as (c & Hget & Hc); [done | dlia | nia |].
  destruct (decide (c = 1)) as [->|Hne] eqn:Hd.
  - eapply step_ok_intro with (bits' := bits);
      [unfold runner_step; simpl; rewrite Hget; simpl; reflexivity
      | done | apply no_reset_refl | |].
    + rewrite u64_small by nia.
      unfold runner_ok; simpl; split_and!; try done.
      exists f. simpl. split_and!; [done | lia | dlia | nia].
    + rewrite u64_small by nia. split; [done|]. simpl.
      split; [done | apply struck_start].
  - assert (c = 0) as -> by lia.
    eapply step_ok_intro with (bits' := bits);
      [unfold runner_step; simpl; rewrite Hget; simpl; reflexivity
      | done | apply no_reset_refl | |].
    + unfold runner_ok, advance; simpl; split_and!; [lia | by rewrite mod_add_self | done].
    + split; [|done]. unfold advance; simpl.
      apply rounds_done_next; [done | done | |].
      * by replace (6 * idx - 1) with (f - 2) by lia.
      * rewrite <- Hf. intros Hp.
        destruct (read_zero_not_prime bits f); [done | dlia | lia | done | done].
Qed.

Lemma step_forB :
  let r := mk_runner AtForB idx f nm in
  runner_ok n t tid r → progress n t bits r → step_ok bits tid r.
Proof.
  intros r (Hidx & Hres & Hi & Hf & Hq & Hom) [Hrd [Hprev Hst]]. simpl in *.
  destruct (decide (nm < n)) as [Hlt|Hge] eqn:Hd.
  - destruct (step_mark AtForB) as (bits' & Hset & Hok' & Hnr & Hu & Hom' & Hst');
      [lia | dlia | done | done | done |].
    eapply step_ok_intro with (bits' := bits');
      [unfold runner_step; simpl; rewrite Hd, Hset; reflexivity | done | done | |].
    + rewrite Hu. unfold runner_ok; simpl; split_and!; done.
    + rewrite Hu. split; simpl; [by eapply rounds_done_no_reset|].
      split; [|done]. intros Hp. by eapply struck_no_reset; [|apply Hprev].
  - eapply step_ok_intro with (bits' := bits);
      [unfold runner_step; simpl; rewrite Hd; reflexivity
      | done | apply no_reset_refl | |].
    + unfold runner_ok, advance; simpl; split_and!; [lia | by rewrite mod_add_self | done].
    + split; [|done]. unfold advance; simpl.
      apply rounds_done_next; [done | done | |].
      * by replace (6 * idx - 1) with (f - 2) by lia.
      * rewrite <- Hf. intros _. apply (struck_full bits f nm); [lia | done].
Qed.

End OneStep.

(** Every step of a runner is defined, only strikes cells of composites,
    and keeps the record of what has been struck. *)
Lemma runner_step_ok bits tid r :
  bits_ok n bits → runner_ok n t tid r → progress n t bits r → step_ok bits tid r.
Proof.
  intros Hok Hr Hp. destruct r as [[] idx f nm].
  - by apply step_while.
  - by apply step_for3.
  - by apply step_ifA.
  - by apply step_forA.
  - by apply step_ifB.
  - by apply step_forB.
  - eapply step_ok_intro; [reflexivity | done | apply no_reset_refl | done | done].
Qed.

End Preservation.

(** ** The pool keeps the invariant *)

(** The vector a finished run is meant to leave: cell [i] is 1 exactly when
    trial division finds [2i+1] prime. *)
Definition expected_bits (n : Z) : list Z :=
  (λ i, if trial_division (2 * i + 1) then 1 else 0) <$> seqZ 0 (n ≫ 1).

Section Pool.
Variables n t : Z.
Hypothesis limit_range : 2 ≤ n < 2 ^ 52.
Hypothesis workers_pos : 1 ≤ t.

Lemma ctor_defined :
  prime_sieve_ctor n t =
    Some (mk_sieve (<[0%nat := 0]> (replicate (Z.to_nat (n ≫ 1)) 1)) n t).
Proof.
  unfold prime_sieve_ctor. rewrite vec_set_in_range; [done|].
  rewrite length_replicate, shiftr_1. dlia.
Qed.

Lemma ctor_bits_ok : bits_ok n (<[0%nat := 0]> (replicate (Z.to_nat (n ≫ 1)) 1)).
Proof.
  assert (Hlen : (0 < Z.to_nat (n ≫ 1))%nat) by (rewrite shiftr_1; dlia).
  split.
  - rewrite length_insert, length_replicate, shiftr_1. dlia.
  - intros [|i] c.
    + rewrite list_lookup_insert_eq by (by rewrite length_replicate).
      intros [= <-]. by left.
    + rewrite list_lookup_insert_ne by done.
      intros [-> _]%lookup_replicate. by right.
  - intros [|i] Hi Hp.
    + by destruct Z.not_prime_1.
    + rewrite list_lookup_insert_ne by done.
      rewrite length_insert, length_replicate in Hi.
      by apply lookup_replicate_2.
  - by apply list_lookup_insert_eq; rewrite length_replicate.
Qed.

Lemma spawn_inv s : prime_sieve_ctor n t = Some s → inv n t (spawn s).
Proof.
  rewrite ctor_defined. intros [= <-]. split; simpl; [done | done | | |].
  - apply ctor_bits_ok.
  - rewrite length_fmap, length_seqZ. lia.
  - intros tid r. rewrite list_lookup_fmap.
    destruct (seqZ 0 t !! tid) as [i|] eqn:Hi; [|done].
    apply lookup_seqZ in Hi as [-> Hi]. intros [= <-]. simpl.
    assert (Hsmall : (0 + Z.of_nat tid) mod t = Z.of_nat tid)
      by (apply Z.mod_small; lia).
    split.
    + unfold runner_ok; simpl. split_and!; [lia | done | done].
    + split; [|done]. simpl. split.
      * rewrite Hsmall. lia.
      * intros k Hk. rewrite Hsmall, Z.mod_small by lia. lia.
Qed.

Lemma step_inv st tid :
  inv n t st →
  ∃ st', step st tid = Some st' ∧ inv n t st' ∧
         no_reset (Bits (shared st)) (Bits (shared st')).
Proof.
  intros [Hsz Hth Hbits Hlen Hrun]. unfold step.
  destruct (pool st !! tid) as [r|] eqn:Hr.
  - destruct (Hrun tid r Hr) as [Hrok Hprog].
    destruct (runner_step_ok n t limit_range workers_pos _ tid r Hbits Hrok Hprog)
      as (bits' & r' & Hstep & Hok' & Hnr & Hrok' & Hprog').
    simpl. rewrite Hsz, Hth, Hstep. simpl.
    eexists. split; [done|]. split; [|done].
    split; simpl; [done | done | done | by rewrite length_insert |].
    intros tid' r''. destruct (decide (tid' = tid)) as [->|Hne].
    + rewrite list_lookup_insert_eq by (by eapply lookup_lt_Some).
      by intros [= <-].
    + rewrite list_lookup_insert_ne by done. intros Hr''.
      destruct (Hrun tid' r'' Hr'') as [??].
      split; [done | by eapply progress_no_reset].
  - exists st. split; [done|]. split; [done | apply no_reset_refl].
Qed.

Lemma exec_inv sched st :
  inv n t st →
  ∃ st', exec sched st = Some st' ∧ inv n t st' ∧
         no_reset (Bits (shared st)) (Bits (shared st')).
Proof.
  revert st. induction sched as [|tid sched IH]; intros st Hinv.
  - exists st. split; [done|]. split; [done | apply no_reset_refl].
  - destruct (step_inv st tid Hinv) as (st1 & Hstep & Hinv1 & Hnr1).
    destruct (IH st1 Hinv1) as (st' & Hexec & Hinv' & Hnr').
    exists st'. simpl. rewrite Hstep. simpl.
    split; [done|]. split; [done | by eapply no_reset_trans].
Qed.

Lemma joined_done st tid r :
  joined st = true → pool st !! tid = Some r → at_ r = AtDone.
Proof.
  unfold joined. rewrite forallb_forall. intros Hall Hr.
  eapply bool_decide_eq_true_1, Hall, list_elem_of_In.
  by eapply list_elem_of_lookup_2.
Qed.

(** Once every runner is done, every odd composite below the limit has
    been struck by the runner that owns its least prime factor. *)
Lemma joined_composites_cleared st m :
  inv n t st → joined st = true →
  m mod 2 = 1 → 3 ≤ m < n → ¬ Z.prime m → cleared (Bits (shared st)) m.
Proof.
  intros [_ _ Hbits Hlen Hrun] Hj Hodd Hm Hnp.
  destruct (prime_factor_sqrt m) as (p & Hp & Hdiv & Hpp); [lia | done |].
  pose proof (Z.prime_ge_2 p Hp) as Hp2.
  pose proof (q_spec n ltac:(lia)) as Hq. pose proof (q_nonneg n) as Hq0.
  assert (Hpq : p ≤ q n) by nia.
  assert (Hpodd : p mod 2 = 1).
  { destruct Hdiv as [z ->]. rewrite Z.mul_comm in Hodd. by eapply odd_mul_inv. }
  assert (Hdone : ∀ k, 0 ≤ k → 6 * k - 1 ≤ q n →
            ∃ r, pool st !! Z.to_nat (k mod t) = Some r ∧
                 k < index r ∧ index r mod t = k mod t ∧
                 rounds_done n t (Bits (shared st)) (index r)).
  { intros k Hk Hkq.
    pose proof (Z.mod_pos_bound k t ltac:(lia)).
    destruct (lookup_lt_is_Some_2 (pool st) (Z.to_nat (k mod t))) as [r Hr]; [lia|].
    destruct (Hrun _ r Hr) as [(_ & Hres & Hat) [Hrd _]].
    rewrite (joined_done st _ r Hj Hr) in Hat. destruct Hat as [Hf Hgt].
    exists r. split_and!; [done | lia | lia | done]. }
  destruct (decide (p = 3)) as [->|Hp3].
  - destruct (Hdone 0) as (r & _ & Hidx & Hres & [H3 _]); [lia | lia |].
    rewrite Z.mod_0_l in Hres by lia.
    apply H3; [done | lia | done | done | lia | lia | lia].
  - destruct (prime_on_wheel p Hp) as (k & Hk & Hform); [dlia|].
    destruct (Hdone k) as (r & _ & Hidx & Hres & [_ Hrounds]); [lia | lia |].
    destruct (Hrounds k) as [Ha Hb]; [lia | done |].
    destruct Hform as [-> | ->]; [apply Ha | apply Hb]; done || lia.
Qed.

Lemma joined_bits st :
  inv n t st → joined st = true → Bits (shared st) = expected_bits n.
Proof.
  intros Hinv Hj. pose proof (inv_bits _ _ _ Hinv) as Hbits.
  destruct Hbits as [Hlen Hbool Hpr Hone].
  apply list_eq. intros i. unfold expected_bits. rewrite list_lookup_fmap.
  destruct (decide (Z.of_nat i < n ≫ 1)) as [Hi|Hi].
  - rewrite lookup_seqZ_lt by done. simpl.
    destruct (trial_division (2 * (0 + Z.of_nat i) + 1)) eqn:Htd.
    + apply Hpr; [lia|]. apply trial_division_prime.
      by replace (2 * Z.of_nat i + 1) with (2 * (0 + Z.of_nat i) + 1) by lia.
    + destruct i as [|i]; [done|].
      assert (Hnp : ¬ Z.prime (2 * (0 + Z.of_nat (S i)) + 1)).
      { intros Hp%trial_division_prime. congruence. }
      rewrite shiftr_1 in Hi.
      pose proof (joined_composites_cleared st (2 * (0 + Z.of_nat (S i)) + 1)
                    Hinv Hj ltac:(dlia) ltac:(dlia) Hnp) as Hcl.
      unfold cleared in Hcl. rewrite shiftr_1 in Hcl.
      by replace (Z.to_nat ((2 * (0 + Z.of_nat (S i)) + 1) / 2)) with (S i) in Hcl by dlia.
  - rewrite lookup_seqZ_ge by lia. simpl.
    apply lookup_ge_None. lia.
Qed.

End Pool.

(** ** Every runner leaves its loop *)

Section Termination.
Variables n t : Z.
Hypothesis limit_range : 2 ≤ n < 2 ^ 52.
Hypothesis workers_pos : 1 ≤ t.

(** Rounds a runner at [idx] may still enter, writes a marking loop at
    [nm] may still perform, and a bound on the steps of one round. *)
Definition rounds_left (idx : Z) : Z := Z.max 0 (q n + 2 - 6 * idx).
Definition loop_left (nm : Z) : Z := Z.max 0 (n - nm).
Definition round_cost : Z := 2 * n + 5.
Definition after_round (idx : Z) : Z := rounds_left (idx + t) * round_cost + 1.

Definition measure (r : runner) : Z :=
  match at_ r with
  | AtWhile => rounds_left (index r) * round_cost + 1
  | AtFor3 => after_round (index r) + 1 + loop_left (num r)
  | AtIfA => after_round (index r) + 2 * n + 4
  | AtForA => after_round (index r) + n + 3 + loop_left (num r)
  | AtIfB => after_round (index r) + n + 2
  | AtForB => after_round (index r) + 1 + loop_left (num r)
  | AtDone => 0
  end.

Definition pool_measure (p : list runner) : Z :=
  foldr (λ r acc, measure r + acc) 0 p.

Lemma after_round_nonneg idx : 1 ≤ after_round idx.
Proof. unfold after_round, rounds_left, round_cost. nia. Qed.

Lemma measure_nonneg r : 0 ≤ measure r.
Proof.
  pose proof (after_round_nonneg (index r)).
  unfold measure, loop_left. destruct (at_ r); try lia.
  unfold rounds_left, round_cost. nia.
Qed.

Lemma pool_measure_nonneg p : 0 ≤ pool_measure p.
Proof.
  induction p as [|r p IH]; simpl; [done|].
  pose proof (measure_nonneg r). lia.
Qed.

Lemma enter_round idx :
  6 * idx - 1 ≤ q n → after_round idx + round_cost ≤ rounds_left idx * round_cost + 1.
Proof.
  intros Hle. unfold after_round.
  assert (rounds_left (idx + t) + 1 ≤ rounds_left idx) by (unfold rounds_left; lia).
  assert (0 < round_cost) by (unfold round_cost; lia).
  nia.
Qed.

Lemma runner_step_measure bits tid r bits' r' :
  runner_ok n t tid r → at_ r ≠ AtDone →
  runner_step n t bits r = Some (bits', r') → measure r' < measure r.
Proof.
  intros (Hidx & _ & Hat) Hnd Hstep.
  pose proof (q_nonneg n) as Hq0. pose proof (q_small n limit_range) as Hqs.
  pose proof (after_round_nonneg (index r)) as Har.
  destruct r as [pl idx f nm]; simpl in *.
  unfold runner_step in Hstep; simpl in Hstep.
  destruct pl; simpl in *; try done.
  - (* while *)
    destruct (decide (f ≤ q n)).
    + pose proof (enter_round idx ltac:(lia)) as Hent.
      pose proof (eq_refl : round_cost = 2 * n + 5) as Hcost.
      destruct (decide (idx = 0)); injection Hstep as <- <-;
        unfold measure, loop_left; simpl; lia.
    + injection Hstep as <- <-. unfold measure; simpl.
      unfold rounds_left, round_cost. nia.
  - (* multiples of 3 *)
    destruct Hat as (_ & _ & Hnm).
    destruct (decide (nm < n)).
    + destruct (vec_set bits _ 0); [|done]. injection Hstep as <- <-.
      rewrite u64_small by lia. unfold measure, loop_left; simpl. lia.
    + injection Hstep as <- <-. unfold measure, advance, after_round, loop_left; simpl. lia.
  - (* first read *)
    destruct Hat as (? & -> & ?).
    destruct (vec_get bits _) as [c|]; [|done]. simpl in Hstep.
    destruct (decide (c = 1)); injection Hstep as <- <-.
    + rewrite u64_small by nia. unfold measure, loop_left; simpl. nia.
    + unfold measure; simpl. lia.
  - (* first marking loop *)
    destruct Hat as (? & -> & ? & (c & Hc & ? & ? & ?)). simpl in *.
    assert (0 ≤ nm) by nia.
    destruct (decide (nm < n)).
    + destruct (vec_set bits _ 0); [|done]. injection Hstep as <- <-.
      rewrite (u64_small (2 * _)), u64_small by lia.
      unfold measure, loop_left; simpl. lia.
    + injection Hstep as <- <-. unfold measure, loop_left; simpl. lia.
  - (* second read *)
    destruct Hat as (? & -> & ?).
    destruct (vec_get bits _) as [c|]; [|done]. simpl in Hstep.
    destruct (decide (c = 1)); injection Hstep as <- <-.
    + rewrite u64_small by nia. unfold measure, loop_left; simpl. nia.
    + unfold measure, advance, after_round, loop_left; simpl. lia.
  - (* second marking loop *)
    destruct Hat as (? & -> & ? & (c & Hc & ? & ? & ?)). simpl in *.
    assert (0 ≤ nm) by nia.
    destruct (decide (nm < n)).
    + destruct (vec_set bits _ 0); [|done]. injection Hstep as <- <-.
      rewrite (u64_small (2 * _)), u64_small by lia.
      unfold measure, loop_left; simpl. lia.
    + injection Hstep as <- <-. unfold measure, advance, after_round, loop_left; simpl. lia.
Qed.

Lemma pool_measure_insert p tid r r' :
  p !! tid = Some r →
  pool_measure (<[tid := r']> p) = pool_measure p - measure r + measure r'.
Proof.
  revert tid. induction p as [|x p IH]; intros [|tid] Hr; simpl in *; try done.
  - injection Hr as ->. lia.
  - rewrite (IH tid Hr). lia.
Qed.

Lemma step_measure st tid r st' :
  inv n t st → pool st !! tid = Some r → at_ r ≠ AtDone →
  step st tid = Some st' → pool_measure (pool st') < pool_measure (pool st).
Proof.
  intros Hinv Hr Hnd. unfold step. rewrite Hr. simpl.
  rewrite (inv_size _ _ _ Hinv), (inv_threads _ _ _ Hinv).
  destruct (runner_step n t _ r) as [[bits' r']|] eqn:Hstep; [|done]. simpl.
  intros [= <-]. simpl. rewrite (pool_measure_insert _ _ r) by done.
  destruct (inv_runners _ _ _ Hinv tid r Hr) as [Hok _].
  pose proof (runner_step_measure _ tid r _ _ Hok Hnd Hstep). lia.
Qed.

Lemma not_joined st :
  joined st = false → ∃ tid r, pool st !! tid = Some r ∧ at_ r ≠ AtDone.
Proof.
  unfold joined. induction (pool st) as [|r p IH]; simpl; [done|].
  intros [Hr|Hp]%andb_false_iff.
  - exists 0%nat, r. split; [done|]. by apply bool_decide_eq_false in Hr.
  - destruct (IH Hp) as (tid & r' & ? & ?). by exists (S tid), r'.
Qed.

(** From any state of a run some schedule leads every runner to the end
    of its loop. *)
Lemma exists_schedule st :
  inv n t st → ∃ sched st', exec sched st = Some st' ∧ joined st' = true.
Proof.
  pose proof (pool_measure_nonneg (pool st)) as Hnn.
  remember (pool_measure (pool st)) as k eqn:Hk. revert st Hk.
  pattern k. apply Z_lt_induction; [|done]. clear k Hnn.
  intros k IH st -> Hinv.
  destruct (joined st) eqn:Hj; [by exists [], st|].
  destruct (not_joined st Hj) as (tid & r & Hr & Hnd).
  destruct (step_inv n t limit_range workers_pos st tid Hinv) as (st1 & Hstep & Hinv1 & _).
  pose proof (step_measure st tid r st1 Hinv Hr Hnd Hstep) as Hlt.
  pose proof (pool_measure_nonneg (pool st1)).
  destruct (IH (pool_measure (pool st1)) ltac:(lia) st1 eq_refl Hinv1)
    as (sched & st' & Hexec & Hj').
  exists (tid :: sched), st'. simpl. rewrite Hstep. done.
Qed.

End Termination.

(** ** Runs as a whole *)

Lemma exec_app sched1 sched2 st :
  exec (sched1 ++ sched2) st = st' ← exec sched1 st; exec sched2 st'.
Proof.
  revert st. induction sched1 as [|tid sched1 IH]; intros st; simpl.
  - by destruct (exec sched2 st).
  - destruct (step st tid) as [st1|]; simpl; [apply IH | done].
Qed.

(** The constructor is defined from limit 2 on only: below, [Bits] is empty
    and [Bits[0] = 0] writes outside it. *)
Lemma ctor_some n t s : prime_sieve_ctor n t = Some s → 2 ≤ n.
Proof.
  unfold prime_sieve_ctor, vec_set. destruct (decide _) as [Hlen|]; [|done].
  intros _. rewrite length_replicate, shiftr_1 in Hlen. dlia.
Qed.

Lemma run_some_limit n t sched s : run n t sched = Some s → 2 ≤ n.
Proof.
  unfold run. destruct (prime_sieve_ctor n t) as [s0|] eqn:Hc; [|done].
  intros _. by eapply ctor_some.
Qed.

Section Runs.
Variables n t : Z.
Hypothesis limit_range : 2 ≤ n < 2 ^ 52.
Hypothesis workers_pos : 1 ≤ t.

(** Whatever the schedule, a joined run leaves the expected vector. *)
Lemma run_result sched s :
  run n t sched = Some s → s = mk_sieve (expected_bits n) n t.
Proof.
  unfold run. destruct (prime_sieve_ctor n t) as [s0|] eqn:Hc; [|done]. simpl.
  pose proof (spawn_inv n t limit_range workers_pos s0 Hc) as Hinv0.
  destruct (exec_inv n t limit_range workers_pos sched _ Hinv0)
    as (st & -> & Hinv & _). simpl.
  destruct (joined st) eqn:Hj; [|done]. intros [= <-].
  pose proof (joined_bits n t limit_range workers_pos st Hinv Hj) as Hb.
  destruct Hinv as [Hsz Hth _ _ _]. destruct (shared st); simpl in *. congruence.
Qed.

(** No schedule runs into an undefined access, and every schedule can be
    continued until all runners are done. *)
Lemma run_total prefix : ∃ rest s, run n t (prefix ++ rest) = Some s.
Proof.
  pose proof (ctor_defined n t limit_range) as Hc.
  pose proof (spawn_inv n t limit_range workers_pos _ Hc) as Hinv0.
  destruct (exec_inv n t limit_range workers_pos prefix _ Hinv0)
    as (st & Hpre & Hinv & _).
  destruct (exists_schedule n t limit_range workers_pos st Hinv)
    as (rest & st' & Hrest & Hj).
  exists rest, (shared st'). unfold run. rewrite Hc. simpl.
  rewrite exec_app, Hpre. simpl. rewrite Hrest. simpl. by rewrite Hj.
Qed.

End Runs.

(** ** Reading the expected vector *)

Lemma expected_bits_length n : Z.of_nat (length (expected_bits n)) = Z.max 0 (n ≫ 1).
Proof. unfold expected_bits. rewrite length_fmap, length_seqZ. lia. Qed.

Lemma expected_bits_lookup n i :
  0 ≤ i → 2 * i + 1 < n →
  vec_get (expected_bits n) i = Some (if trial_division (2 * i + 1) then 1 else 0).
Proof.
  intros Hi Hlt. unfold vec_get, expected_bits. rewrite decide_True by done.
  rewrite list_lookup_fmap, lookup_seqZ_lt by (rewrite shiftr_1; dlia).
  simpl. by replace (0 + Z.of_nat (Z.to_nat i)) with i by lia.
Qed.

Lemma expected_bits_lookup_ge n i :
  0 ≤ i → n ≤ 2 * i + 1 → vec_get (expected_bits n) i = None.
Proof.
  intros Hi Hge. unfold vec_get, expected_bits. rewrite decide_True by done.
  rewrite list_lookup_fmap, lookup_seqZ_ge; [done|]. rewrite shiftr_1. dlia.
Qed.

(** ** Counting *)

(** The count loop over the expected vector, from cell [i] on, [k] cells. *)
Fixpoint count_from (k : nat) (i acc : Z) : Z :=
  match k with
  | O => acc
  | S k' => count_from k' (i + 1) (if trial_division (2 * i + 1) then acc + 1 else acc)
  end.

(** The number of primes below [n]. *)
Definition prime_count (n : Z) : Z :=
  Z.of_nat (length (filter (λ m, trial_division m = true) (seqZ 0 n))).

Lemma fold_count_from k i acc :
  fold_left (λ count c, if decide (c = 0) then count else count + 1)
    ((λ i, if trial_division (2 * i + 1) then 1 else 0) <$> seqZ i (Z.of_nat k)) acc
  = count_from k i acc.
Proof.
  revert i acc. induction k as [|k IH]; intros i acc; [done|].
  rewrite seqZ_cons by lia. cbn [fmap list_fmap fold_left count_from].
  replace (Z.pred (Z.of_nat (S k))) with (Z.of_nat k) by lia.
  rewrite <- IH. unfold Z.succ. f_equal.
  by destruct (trial_division (2 * i + 1)).
Qed.

Lemma countPrimes_expected n t :
  2 ≤ n → countPrimes (mk_sieve (expected_bits n) n t)
          = count_from (Z.to_nat (n ≫ 1) - 1) 1 1.
Proof.
  intros Hn. unfold countPrimes, expected_bits. simpl.
  rewrite decide_True by done.
  rewrite seqZ_cons by (rewrite shiftr_1; dlia). simpl. rewrite drop_0.
  replace (Z.pred (n ≫ 1)) with (Z.of_nat (Z.to_nat (n ≫ 1) - 1))
    by (rewrite shiftr_1; dlia).
  apply fold_count_from.
Qed.

Lemma count_from_acc k i acc : count_from k i acc = acc + count_from k i 0.
Proof.
  revert i acc. induction k as [|k IH]; intros i acc; simpl; [lia|].
  destruct (trial_division (2 * i + 1)); [|apply IH].
  rewrite (IH _ (acc + 1)), (IH _ (0 + 1)). lia.
Qed.

Lemma count_from_snoc k i acc :
  count_from (S k) i acc
  = count_from k i acc + (if trial_division (2 * (i + Z.of_nat k) + 1) then 1 else 0).
Proof.
  revert i acc. induction k as [|k IH]; intros i acc.
  - cbn [count_from]. replace (i + Z.of_nat 0) with i by lia.
    destruct (trial_division (2 * i + 1)); lia.
  - change (count_from (S (S k)) i acc)
      with (count_from (S k) (i + 1) (if trial_division (2 * i + 1) then acc + 1 else acc)).
    rewrite IH. cbn [count_from].
    by replace (i + 1 + Z.of_nat k) with (i + Z.of_nat (S k)) by lia.
Qed.

Lemma prime_count_succ n :
  0 ≤ n → prime_count (n + 1) = prime_count n + (if trial_division n then 1 else 0).
Proof.
  intros Hn. unfold prime_count.
  rewrite seqZ_app, list.filter_app, List.length_app by lia.
  rewrite (seqZ_cons (0 + n) 1), (seqZ_nil _ (Z.pred 1)) by lia.
  rewrite list.filter_cons, list.filter_nil, Z.add_0_l.
  destruct (decide _) as [Ht|Hf]; simpl.
  - rewrite Ht. lia.
  - destruct (trial_division n); [done | lia].
Qed.

Lemma even_not_prime n : 3 ≤ n → n mod 2 = 0 → trial_division n = false.
Proof.
  intros Hn Heven. destruct (trial_division n) eqn:Htd; [|done].
  apply trial_division_prime in Htd as [_ Hnd].
  destruct (Hnd 2); [lia|]. by apply Z.mod_divide.
Qed.

(** From limit 3 on, [countPrimes] of the expected vector is the number of
    primes below the limit.  (At limit 2 it is 1: [Size >= 2] counts the
    number 2 although 2 is not below 2.) *)
Lemma countPrimes_prime_count n t :
  3 ≤ n → countPrimes (mk_sieve (expected_bits n) n t) = prime_count n.
Proof.
  intros Hn. rewrite countPrimes_expected by lia.
  replace n with (3 + Z.of_nat (Z.to_nat (n - 3))) by lia.
  generalize (Z.to_nat (n - 3)) as j. clear. intros j.
  induction j as [|j IH]; [done|].
  replace (3 + Z.of_nat (S j)) with ((3 + Z.of_nat j) + 1) by lia.
  rewrite prime_count_succ, <- IH by lia. rewrite !shiftr_1.
  assert (Hm : 3 ≤ 3 + Z.of_nat j) by lia. revert Hm.
  generalize (3 + Z.of_nat j) as m. clear. intros m Hm.
  destruct (decide (m mod 2 = 0)) as [Heven|Hodd].
  - rewrite even_not_prime by (done || lia).
    replace ((m + 1) / 2) with (m / 2) by dlia. lia.
  - assert (Hhalf : (m + 1) / 2 = m / 2 + 1) by dlia.
    assert (Hpos : 1 ≤ m / 2) by dlia.
    assert (Hm2 : 2 * (1 + Z.of_nat (Z.to_nat (m / 2) - 1)) + 1 = m) by dlia.
    rewrite Hhalf.
    replace (Z.to_nat (m / 2 + 1) - 1)%nat with (S (Z.to_nat (m / 2) - 1)) by lia.
    by rewrite count_from_snoc, Hm2.
Qed.

(** ** Counting primes below the larger limits of the table

    The count of the survivors of a sieve by all numbers up to [p], over the
    quotients of the limit, satisfies a recurrence on [p]; it gives the number
    of primes up to [N] in about [N^(3/4)] steps. *)

(** [m] has no divisor from 2 to [p]. *)
Definition rough (p m : Z) : Prop := ∀ d, 2 ≤ d ≤ p → ¬ (d | m).

(** [m] is left by the sieve with the numbers up to [p]. *)
Definition survives (p m : Z) : Prop := Z.prime m ∨ rough p m.

(** [m] is struck when sieving with the prime [p]. *)
Definition struck_by (p m : Z) : Prop := m ≠ p ∧ (p | m) ∧ rough (p - 1) m.

#[global] Instance divide_decision (a b : Z) : Decision (a | b).
Proof.
  refine (cast_if (decide ((b =? 0) || negb (a =? 0) && (b mod a =? 0) = true)));
    by destruct (Z.BoolSpec_divide a b).
Defined.

#[global] Instance prime_decision (m : Z) : Decision (Z.prime m) := Zprime_dec m.

Lemma rough_Forall p m : rough p m ↔ Forall (λ d, ¬ (d | m)) (seqZ 2 (p - 1)).
Proof.
  rewrite Forall_lookup. split.
  - intros Hr i d [-> Hi]%lookup_seqZ. apply Hr. lia.
  - intros Hf d Hd. apply (Hf (Z.to_nat (d - 2))). apply lookup_seqZ. lia.
Qed.

#[global] Instance rough_decision (p m : Z) : Decision (rough p m).
Proof.
  refine (cast_if (decide (Forall (λ d, ¬ (d | m)) (seqZ 2 (p - 1)))));
    by rewrite rough_Forall.
Defined.

(** The number of [i] in [a, a + n) with [P i]. *)
Fixpoint count (P : Z → Prop) `{∀ i, Decision (P i)} (a : Z) (n : nat) : Z :=
  match n with
  | O => 0
  | S n' => (if decide (P a) then 1 else 0) + count P (a + 1) n'
  end.

(** The survivors in [2, v] of the sieve with the numbers up to [p]. *)
Definition survivors (v p : Z) : Z := count (survives p) 2 (Z.to_nat (v - 1)).

(** The primes in [2, v]. *)
Definition primes_upto (v : Z) : Z := count Z.prime 2 (Z.to_nat (v - 1)).

Section Count.
Context (P Q R : Z → Prop) `{∀ i, Decision (P i)} `{∀ i, Decision (Q i)}
        `{∀ i, Decision (R i)}.

Lemma count_ext a n :
  (∀ i, a ≤ i < a + Z.of_nat n → (P i ↔ Q i)) → count P a n = count Q a n.
Proof.
  revert a. induction n as [|n IH]; intros a Hext; [done|].
  cbn [count]. rewrite (IH (a + 1)) by (intros; apply Hext; lia).
  destruct (decide (P a)) as [Hp|Hp], (decide (Q a)) as [Hq|Hq]; try done;
    destruct (Hext a ltac:(lia)); tauto.
Qed.

Lemma count_split a n :
  (∀ i, a ≤ i < a + Z.of_nat n → (P i ↔ Q i ∨ R i) ∧ ¬ (Q i ∧ R i)) →
  count P a n = count Q a n + count R a n.
Proof.
  revert a. induction n as [|n IH]; intros a Hext; [done|].
  cbn [count]. rewrite (IH (a + 1)) by (intros; apply Hext; lia).
  destruct (Hext a ltac:(lia)) as [Hiff Hdis].
  destruct (decide (P a)), (decide (Q a)), (decide (R a)); try lia; exfalso; tauto.
Qed.

Lemma count_app a n1 n2 :
  count P a (n1 + n2) = count P a n1 + count P (a + Z.of_nat n1) n2.
Proof.
  revert a. induction n1 as [|n1 IH]; intros a.
  - cbn [count Nat.add]. rewrite Z.add_0_r. lia.
  - cbn [count Nat.add]. rewrite IH.
    replace (a + 1 + Z.of_nat n1) with (a + Z.of_nat (S n1)) by lia. lia.
Qed.

Lemma count_none a n :
  (∀ i, a ≤ i < a + Z.of_nat n → ¬ P i) → count P a n = 0.
Proof.
  revert a. induction n as [|n IH]; intros a Hno; [done|].
  cbn [count]. rewrite (IH (a + 1)) by (intros; apply Hno; lia).
  destruct (decide (P a)) as [Hp|]; [|done]. destruct (Hno a); [lia | done].
Qed.

Lemma count_all a n :
  (∀ i, a ≤ i < a + Z.of_nat n → P i) → count P a n = Z.of_nat n.
Proof.
  revert a. induction n as [|n IH]; intros a Hall; [done|].
  cbn [count]. rewrite (IH (a + 1)) by (intros; apply Hall; lia).
  destruct (decide (P a)) as [|Hp]; [lia|]. destruct Hp. apply Hall. lia.
Qed.

Lemma count_bounds a n : 0 ≤ count P a n ≤ Z.of_nat n.
Proof.
  revert a. induction n as [|n IH]; intros a; [simpl; lia|].
  cbn [count]. specialize (IH (a + 1)). destruct (decide (P a)); lia.
Qed.

End Count.

(** Counting over the multiples of [p] in [1, v] is counting over
    [1, v / p]. *)
Lemma count_multiples (P : Z → Prop) `{∀ i, Decision (P i)} (p : Z) (v : nat) :
  1 ≤ p →
  count (λ m, (p | m) ∧ P m) 1 v
  = count (λ k, P (p * k)) 1 (Z.to_nat (Z.of_nat v / p)).
Proof.
  intros Hp. induction v as [|v IH].
  { by rewrite Z.div_0_l by lia. }
  replace (S v) with (v + 1)%nat by lia. rewrite count_app, IH. cbn [count].
  pose proof (Z.div_mod (Z.of_nat v) p ltac:(lia)) as Hdm.
  pose proof (Z.mod_pos_bound (Z.of_nat v) p ltac:(lia)) as Hmb.
  pose proof (Z.div_pos (Z.of_nat v) p ltac:(lia) ltac:(lia)) as Hq0.
  destruct (decide (Z.of_nat v mod p + 1 = p)) as [Hfull|Hpart].
  - assert (Hdiv : Z.of_nat (v + 1) / p = Z.of_nat v / p + 1).
    { symmetry. apply (Z.div_unique _ _ _ 0); lia. }
    rewrite Hdiv.
    replace (Z.to_nat (Z.of_nat v / p + 1)) with (Z.to_nat (Z.of_nat v / p) + 1)%nat by lia.
    rewrite count_app. cbn [count]. f_equal.
    assert (Heq : 1 + Z.of_nat v = p * (1 + Z.of_nat (Z.to_nat (Z.of_nat v / p)))) by lia.
    rewrite <- Heq.
    destruct (decide (P (1 + Z.of_nat v))) as [HP|HP].
    + rewrite decide_True; [done|]. split; [|done].
      exists (Z.of_nat v / p + 1). lia.
    + rewrite decide_False; [done|]. tauto.
  - assert (Hdiv : Z.of_nat (v + 1) / p = Z.of_nat v / p).
    { symmetry. apply (Z.div_unique _ _ _ (Z.of_nat v mod p + 1)); lia. }
    rewrite Hdiv. rewrite decide_False; [lia|].
    intros [[k Hk] _].
    assert (Hmod : (1 + Z.of_nat v) mod p = Z.of_nat v mod p + 1).
    { symmetry. apply (Z.mod_unique _ _ (Z.of_nat v / p)); lia. }
    rewrite Hk, Z.mod_mul in Hmod by lia. lia.
Qed.

(** ** The sieve recurrence *)

Lemma rough_mono p p' m : p' ≤ p → rough p m → rough p' m.
Proof. intros Hle Hr d Hd. apply Hr. lia. Qed.

Lemma prime_rough p m : Z.prime m → p < m → rough p m.
Proof. intros [_ Hm] Hlt d Hd. apply Hm. lia. Qed.

Lemma rough_small p m : 2 ≤ m → rough p m → p < m.
Proof.
  intros Hm Hr. destruct (decide (p < m)); [done|].
  destruct (Hr m); [lia | apply Z.divide_refl].
Qed.

Lemma rough_factor p k m : (k | m) → rough p m → rough p k.
Proof. intros Hk Hr d Hd Hdk. apply (Hr d Hd). by etrans. Qed.

Lemma rough_composite p m : 2 ≤ p → ¬ Z.prime p → rough (p - 1) m → rough p m.
Proof.
  intros Hp Hnp Hr d Hd Hdm.
  destruct (decide (d = p)) as [->|]; [|apply (Hr d); [lia | done]].
  destruct (composite_small_divisor p Hp Hnp) as (k & Hk & Hkk & Hkp).
  apply (Hr k); [nia | by etrans].
Qed.

Lemma rough_prime_mul p k : Z.prime p → rough (p - 1) k → rough (p - 1) (p * k).
Proof.
  intros Hp Hr d Hd Hdiv.
  destruct (prime_factor d ltac:(lia)) as (q & Hq & Hqd).
  pose proof (Z.prime_ge_2 q Hq) as Hq2.
  assert (q ≤ d) by (apply Z.divide_pos_le; [lia | done]).
  assert (Hqpk : (q | p * k)) by (by etrans).
  apply (Z.divide_prime_mul p k q Hq) in Hqpk as [Hqp|Hqk].
  - destruct Hp as [_ Hp]. apply (Hp q); [lia | done].
  - apply (Hr q); [lia | done].
Qed.

Lemma survives_split p m :
  Z.prime p →
  (survives (p - 1) m ↔ survives p m ∨ struck_by p m) ∧
  ¬ (survives p m ∧ struck_by p m).
Proof.
  intros Hp. pose proof (Z.prime_ge_2 p Hp) as Hp2. split; [split|].
  - intros [Hm|Hr]; [by left; left|].
    destruct (decide (p | m)) as [Hdiv|Hndiv].
    + destruct (decide (m = p)) as [->|Hne]; [by left; left | by right].
    + left. right. intros d Hd.
      destruct (decide (d = p)) as [->|]; [done | apply Hr; lia].
  - intros [[Hm|Hr]|(_ & _ & Hr)]; [by left | right | by right].
    eapply rough_mono; [|done]. lia.
  - intros [[Hm|Hr] (Hne & Hdiv & _)].
    + destruct Hm as [Hm1 Hm]. apply (Hm p); [|done].
      assert (p ≤ m) by (apply Z.divide_pos_le; [lia | done]). lia.
    + apply (Hr p); [lia | done].
Qed.

Lemma struck_by_multiple p k :
  Z.prime p → 1 ≤ k → (struck_by p (p * k) ↔ p ≤ k ∧ rough (p - 1) k).
Proof.
  intros Hp Hk. pose proof (Z.prime_ge_2 p Hp) as Hp2. split.
  - intros (Hne & _ & Hr).
    assert (Hrk : rough (p - 1) k).
    { eapply rough_factor; [|done]. exists p. lia. }
    split; [|done]. assert (2 ≤ k) by nia.
    pose proof (rough_small (p - 1) k ltac:(lia) Hrk). lia.
  - intros [Hle Hr]. split_and!; [nia | by exists k; lia | by apply rough_prime_mul].
Qed.

Lemma rough_survives p k : p ≤ k → (rough (p - 1) k ↔ survives (p - 1) k).
Proof.
  intros Hle. split; [by right|]. intros [Hk|Hr]; [|done].
  apply prime_rough; [done | lia].
Qed.

Lemma survives_below_square p m :
  0 ≤ p → 2 ≤ m → m < (p + 1) * (p + 1) → (survives p m ↔ Z.prime m).
Proof.
  intros Hp0 Hm Hlt. split; [|by left]. intros [Hp|Hr]; [done|].
  destruct (decide (Z.prime m)) as [|Hnp]; [done|].
  destruct (composite_small_divisor m Hm Hnp) as (k & Hk & Hkk & Hkm).
  destruct (Hr k); [nia | done].
Qed.

Lemma survivors_unfold v p :
  survivors v p = count (survives p) 2 (Z.to_nat (v - 1)).
Proof. done. Qed.

Lemma survivors_bounds v p : 0 ≤ survivors v p ≤ Z.max 0 (v - 1).
Proof. pose proof (count_bounds (survives p) 2 (Z.to_nat (v - 1))). unfold survivors. lia. Qed.

Lemma survivors_init v : 1 ≤ v → survivors v 1 = v - 1.
Proof.
  intros Hv. unfold survivors. rewrite count_all; [lia|].
  intros i Hi. right. intros d Hd. lia.
Qed.

Lemma survivors_composite v p :
  2 ≤ p → ¬ Z.prime p → survivors v p = survivors v (p - 1).
Proof.
  intros Hp Hnp. unfold survivors. apply count_ext. intros m Hm. split.
  - intros [?|Hr]; [by left | right]. eapply rough_mono; [|done]. lia.
  - intros [?|Hr]; [by left | right]. by apply rough_composite.
Qed.

Lemma survivors_small v p :
  Z.prime p → v < p * p → survivors v p = survivors v (p - 1).
Proof.
  intros Hp Hv. pose proof (Z.prime_ge_2 p Hp) as Hp2.
  unfold survivors. apply count_ext. intros m Hm.
  destruct (survives_split p m Hp) as [Hiff _]. rewrite Hiff. split; [by left|].
  intros [|(Hne & [k ->] & Hr)]; [done|]. exfalso.
  assert (Hk : 1 ≤ k) by nia.
  assert (Hs : struck_by p (p * k)).
  { split_and!; [lia | by exists k; lia | by rewrite Z.mul_comm]. }
  apply struck_by_multiple in Hs as [Hle _]; [|done..]. nia.
Qed.

Lemma survivors_step v p :
  Z.prime p → p * p ≤ v →
  survivors v p
  = survivors v (p - 1) - (survivors (v / p) (p - 1) - survivors (p - 1) (p - 1)).
Proof.
  intros Hp Hv. pose proof (Z.prime_ge_2 p Hp) as Hp2.
  assert (Hvp : p ≤ v / p) by (apply Z.div_le_lower_bound; lia).
  assert (Hstruck : count (struck_by p) 2 (Z.to_nat (v - 1))
                    = count (survives (p - 1)) p (Z.to_nat (v / p - p + 1))).
  { transitivity (count (struck_by p) 1 (Z.to_nat v)).
    { replace (Z.to_nat v) with (S (Z.to_nat (v - 1))) by lia. cbn [count].
      rewrite decide_False; [done|]. intros (_ & Hdiv & _).
      apply Z.divide_1_r_nonneg in Hdiv; lia. }
    rewrite (count_ext _ (λ m, (p | m) ∧ struck_by p m))
      by (intros; unfold struck_by; tauto).
    rewrite count_multiples by lia. rewrite Z2Nat.id by lia.
    rewrite (count_ext _ (λ k, p ≤ k ∧ rough (p - 1) k))
      by (intros; apply struck_by_multiple; [done | lia]).
    replace (Z.to_nat (v / p)) with (Z.to_nat (p - 1) + Z.to_nat (v / p - p + 1))%nat by lia.
    rewrite count_app, count_none by (intros; lia).
    rewrite Z2Nat.id by lia. replace (1 + (p - 1)) with p by lia.
    rewrite Z.add_0_l. apply count_ext. intros k Hk.
    rewrite <- rough_survives by lia. split; [tauto | intros; split; [lia | done]]. }
  assert (Hparts : survivors (v / p) (p - 1)
                   = survivors (p - 1) (p - 1)
                     + count (survives (p - 1)) p (Z.to_nat (v / p - p + 1))).
  { unfold survivors.
    replace (Z.to_nat (v / p - 1)) with (Z.to_nat (p - 1 - 1) + Z.to_nat (v / p - p + 1))%nat by lia.
    rewrite count_app. do 2 f_equal. lia. }
  assert (Hsplit : survivors v (p - 1)
                   = survivors v p + count (struck_by p) 2 (Z.to_nat (v - 1))).
  { unfold survivors. apply count_split. intros. by apply survives_split. }
  lia.
Qed.

Lemma survivors_self p :
  2 ≤ p →
  survivors p (p - 1)
  = survivors (p - 1) (p - 1) + (if decide (Z.prime p) then 1 else 0).
Proof.
  intros Hp. unfold survivors.
  replace (Z.to_nat (p - 1)) with (Z.to_nat (p - 1 - 1) + 1)%nat by lia.
  rewrite count_app. cbn [count]. rewrite Z2Nat.id by lia.
  replace (2 + (p - 1 - 1)) with p by lia. rewrite Z.add_0_r. f_equal.
  destruct (decide (Z.prime p)) as [Hpr|Hnp].
  - rewrite decide_True; [done | by left].
  - rewrite decide_False; [done|]. intros [?|Hr]; [done|].
    pose proof (rough_composite p p Hp Hnp Hr) as Hr'.
    apply (Hr' p); [lia | apply Z.divide_refl].
Qed.

Lemma survivors_final v p :
  0 ≤ p → v < (p + 1) * (p + 1) → survivors v p = primes_upto v.
Proof.
  intros Hp0 Hv. unfold survivors, primes_upto. apply count_ext.
  intros m Hm. apply survives_below_square; lia.
Qed.

Lemma primes_upto_prime_count v : 1 ≤ v → primes_upto v = prime_count (v + 1).
Proof.
  intros Hv. replace v with (1 + Z.of_nat (Z.to_nat (v - 1))) by lia.
  generalize (Z.to_nat (v - 1)) as j. clear. intros j.
  induction j as [|j IH]; [done|].
  replace (1 + Z.of_nat (S j) + 1) with ((1 + Z.of_nat j + 1) + 1) by lia.
  rewrite prime_count_succ, <- IH by lia. unfold primes_upto.
  replace (Z.to_nat (1 + Z.of_nat (S j) - 1)) with (Z.to_nat (1 + Z.of_nat j - 1) + 1)%nat by lia.
  rewrite count_app. cbn [count]. rewrite Z.add_0_r. f_equal.
  replace (2 + Z.of_nat (Z.to_nat (1 + Z.of_nat j - 1))) with (1 + Z.of_nat j + 1) by lia.
  destruct (trial_division (1 + Z.of_nat j + 1)) eqn:Htd.
  - rewrite decide_True; [done|]. by apply trial_division_prime.
  - rewrite decide_False; [done|]. intros Hp%trial_division_prime. congruence.
Qed.

Lemma survivors_mono v v' p : v ≤ v' → survivors v p ≤ survivors v' p.
Proof.
  intros Hle. unfold survivors.
  replace (Z.to_nat (v' - 1))
    with (Z.to_nat (v - 1) + (Z.to_nat (v' - 1) - Z.to_nat (v - 1)))%nat by lia.
  rewrite count_app.
  pose proof (count_bounds (survives p) (2 + Z.of_nat (Z.to_nat (v - 1)))
                (Z.to_nat (v' - 1) - Z.to_nat (v - 1))). lia.
Qed.

(** ** The count on machine integers and arrays *)

(** [forced x k] is [k]; the test on [x] makes every evaluation order
    compute [x] before it goes on with [k], so that no cell and no array is
    left as a pending computation. *)
Notation "'forced' x k" := (if (x =? x)%uint63 then k else k)
  (at level 10, x at level 9, k at level 9, only parsing).

(** [a.[i <- x]], with [x] computed first. *)
Definition store (a : array int) (i x : int) : array int :=
  forced x a.[i <- x].

(** [a.[i] <- body i a] for [i] from [i] up to [last]. *)
Fixpoint for_up (fuel : nat) (i last : int) (body : int → array int → int)
    (a : array int) : array int :=
  match fuel with
  | O => a
  | S fuel' =>
      if (i <=? last)%uint63
      then
        let a' := store a i (body i a) in
        forced (PArray.length a') (for_up fuel' (i + 1)%uint63 last body a')
      else a
  end.

(** [a.[v] <- body v a] for [v] from [v] down to [low]. *)
Fixpoint for_down (fuel : nat) (v low : int) (body : int → array int → int)
    (a : array int) : array int :=
  match fuel with
  | O => a
  | S fuel' =>
      if (low <=? v)%uint63
      then
        let a' := store a v (body v a) in
        forced (PArray.length a') (for_down fuel' (v - 1)%uint63 low body a')
      else a
  end.

Definition min63 (a b : int) : int := if (a <=? b)%uint63 then a else b.

(** The survivors up to [N / ip]: among the large quotients while [ip] is
    at most the root, among the small values otherwise. *)
Definition part (N r : int) (lo hi : array int) (ip : int) : int :=
  if (ip <=? r)%uint63 then hi.[ip] else lo.[(N / ip)%uint63].

Fixpoint sieve_loop (fuel full : nat) (N r p : int) (lo hi : array int)
    : array int * array int :=
  match fuel with
  | O => (lo, hi)
  | S fuel' =>
      if (p <=? r)%uint63 then
        if (lo.[p] =? lo.[(p - 1)%uint63])%uint63
        then sieve_loop fuel' full N r (p + 1)%uint63 lo hi
        else
          let c := lo.[(p - 1)%uint63] in
          let pp := (p * p)%uint63 in
          let hi' :=
            for_up full 1%uint63 (min63 r (N / pp)%uint63)
              (λ i hi, (hi.[i] - (part N r lo hi (i * p) - c))%uint63) hi in
          forced (PArray.length hi')
            (let lo' :=
               for_down full r pp
                 (λ v lo, (lo.[v] - (lo.[(v / p)%uint63] - c))%uint63) lo in
             sieve_loop fuel' full N r (p + 1)%uint63 lo' hi')
      else (lo, hi)
  end.

(** The number of primes up to [n]. *)
Definition count_by_quotients (n : Z) : Z :=
  let N := of_Z n in
  let r := of_Z (Z.sqrt n) in
  let full := Z.to_nat (Z.sqrt n) in
  let lo := for_up full 1%uint63 r (λ v _, (v - 1)%uint63)
              (make (r + 1)%uint63 0%uint63) in
  let hi := for_up full 1%uint63 r (λ i _, (N / i - 1)%uint63)
              (make (r + 1)%uint63 0%uint63) in
  to_Z (snd (sieve_loop full full N r 2%uint63 lo hi)).[1%uint63].


(** ** The arrays hold the counts *)

Lemma wB_eq : wB = 2 ^ 63.
Proof. reflexivity. Qed.

Lemma if_same {A} (b : bool) (k : A) : (if b then k else k) = k.
Proof. by destruct b. Qed.

Lemma store_set a i x : store a i x = a.[i <- x].
Proof. apply if_same. Qed.

Section Arrays.
Variable r : Z.
Hypothesis r_range : 1 ≤ r < 2 ^ 21.

(** [a] has cells [0 .. r], and cell [j] holds [f j] for [j] in [1, r]. *)
Definition rep (a : array int) (f : Z → Z) : Prop :=
  to_Z (PArray.length a) = r + 1 ∧
  ∀ j : int, 1 ≤ to_Z j ≤ r → to_Z a.[j] = f (to_Z j).

Lemma rep_ext a f g :
  (∀ j, 1 ≤ j ≤ r → f j = g j) → rep a f → rep a g.
Proof.
  intros Hext [Hlen Hget]. split; [done|].
  intros j Hj. rewrite Hget by done. by apply Hext.
Qed.

Lemma rep_get a f j : rep a f → 1 ≤ to_Z j ≤ r → to_Z a.[j] = f (to_Z j).
Proof. intros [_ Hget]. apply Hget. Qed.

Lemma rep_set a f (j x : int) :
  rep a f → 1 ≤ to_Z j ≤ r →
  rep a.[j <- x] (λ k, if decide (k = to_Z j) then to_Z x else f k).
Proof.
  intros [Hlen Hget] Hj. split; [by rewrite length_set|].
  intros k Hk. destruct (decide (to_Z k = to_Z j)) as [Heq|Hne].
  - apply to_Z_inj in Heq as ->. rewrite get_set_same; [done|].
    apply ltb_spec. lia.
  - rewrite get_set_other by congruence. by apply Hget.
Qed.

Lemma rep_make : rep (make (of_Z r + 1)%uint63 0%uint63) (λ _, 0).
Proof.
  assert (Hr : to_Z (of_Z r + 1)%uint63 = r + 1).
  { rewrite add_spec, of_Z_spec, to_Z_1, wB_eq.
    rewrite (Z.mod_small r) by lia. apply Z.mod_small. lia. }
  split.
  - rewrite length_make.
    destruct (lebP (of_Z r + 1)%uint63 max_length) as [|Hgt]; [done|].
    destruct Hgt. rewrite Hr. change (to_Z max_length) with 4194303. lia.
  - intros j _. by rewrite get_make.
Qed.

(** The ascending loop, from a state where the cells below [i] are new. *)
Lemma for_up_spec (old new : Z → Z) (body : int → array int → int) (last : int) :
  to_Z last ≤ r →
  (∀ (k : int) (b : array int),
     1 ≤ to_Z k ≤ to_Z last →
     rep b (λ j, if decide (j < to_Z k) then new j else old j) →
     to_Z (body k b) = new (to_Z k)) →
  ∀ fuel (i : int) (a : array int),
    1 ≤ to_Z i ≤ to_Z last + 1 → to_Z last + 1 - to_Z i ≤ Z.of_nat fuel →
    rep a (λ j, if decide (j < to_Z i) then new j else old j) →
    rep (for_up fuel i last body a)
        (λ j, if decide (j ≤ to_Z last) then new j else old j).
Proof.
  intros Hlast Hbody. induction fuel as [|fuel IH]; intros i a Hi Hfuel Ha.
  - simpl. eapply rep_ext; [|done]. intros j Hj. simpl.
    destruct (decide (j < to_Z i)), (decide (j ≤ to_Z last)); done || lia.
  - cbn [for_up]. destruct (lebP i last) as [Hle|Hgt].
    + cbv zeta. rewrite if_same, store_set.
      assert (Hnext : to_Z (i + 1)%uint63 = to_Z i + 1).
      { rewrite add_spec, to_Z_1, wB_eq. apply Z.mod_small. lia. }
      apply IH; [lia | lia |]. rewrite Hnext.
      eapply rep_ext; [|apply (rep_set a _ i (body i a) Ha); lia].
      intros j Hj. simpl. rewrite (Hbody i a) by (done || lia).
      destruct (decide (j = to_Z i)) as [->|]; [by rewrite decide_True by lia|].
      destruct (decide (j < to_Z i)), (decide (j < to_Z i + 1)); done || lia.
    + eapply rep_ext; [|done]. intros j Hj. simpl.
      destruct (decide (j < to_Z i)), (decide (j ≤ to_Z last)); done || lia.
Qed.

(** The descending loop, from a state where the cells above [v] are new. *)
Lemma for_down_spec (old new : Z → Z) (body : int → array int → int) (low : int) :
  1 ≤ to_Z low →
  (∀ (k : int) (b : array int),
     to_Z low ≤ to_Z k ≤ r →
     rep b (λ j, if decide (to_Z k < j) then new j else old j) →
     to_Z (body k b) = new (to_Z k)) →
  ∀ fuel (v : int) (a : array int),
    to_Z low - 1 ≤ to_Z v ≤ r → to_Z v + 1 - to_Z low ≤ Z.of_nat fuel →
    rep a (λ j, if decide (to_Z v < j) then new j else old j) →
    rep (for_down fuel v low body a)
        (λ j, if decide (to_Z low ≤ j) then new j else old j).
Proof.
  intros Hlow Hbody. induction fuel as [|fuel IH]; intros v a Hv Hfuel Ha.
  - simpl. eapply rep_ext; [|done]. intros j Hj. simpl.
    destruct (decide (to_Z v < j)), (decide (to_Z low ≤ j)); done || lia.
  - cbn [for_down]. destruct (lebP low v) as [Hle|Hgt].
    + cbv zeta. rewrite if_same, store_set.
      assert (Hnext : to_Z (v - 1)%uint63 = to_Z v - 1).
      { rewrite sub_spec, to_Z_1, wB_eq. apply Z.mod_small. lia. }
      apply IH; [lia | lia |]. rewrite Hnext.
      eapply rep_ext; [|apply (rep_set a _ v (body v a) Ha); lia].
      intros j Hj. simpl. rewrite (Hbody v a) by (done || lia).
      destruct (decide (j = to_Z v)) as [->|]; [by rewrite decide_True by lia|].
      destruct (decide (to_Z v < j)), (decide (to_Z v - 1 < j)); done || lia.
    + eapply rep_ext; [|done]. intros j Hj. simpl.
      destruct (decide (to_Z v < j)), (decide (to_Z low ≤ j)); done || lia.
Qed.

Lemma for_down_skip fuel (v low : int) body a :
  to_Z v < to_Z low → for_down fuel v low body a = a.
Proof.
  intros Hlt. destruct fuel as [|fuel]; [done|]. cbn [for_down].
  destruct (lebP low v); [lia | done].
Qed.

End Arrays.

Section QuotientSieve.
Variable n : Z.
Hypothesis n_range : 1 ≤ n < 2 ^ 42.

Let r := Z.sqrt n.
Let N := of_Z n.
Let R := of_Z r.
Let full := Z.to_nat r.

Lemma root_spec : r * r ≤ n < (r + 1) * (r + 1) ∧ 1 ≤ r < 2 ^ 21.
Proof.
  pose proof (Z.sqrt_spec n ltac:(lia)) as H. cbv zeta in H. fold r in H.
  split; [lia|]. split.
  - apply Z.sqrt_le_square; lia.
  - apply Z.sqrt_lt_square; lia.
Qed.

Lemma to_Z_N : to_Z N = n.
Proof. unfold N. rewrite of_Z_spec, wB_eq. apply Z.mod_small. lia. Qed.

Lemma to_Z_R : to_Z R = r.
Proof.
  destruct root_spec as [_ Hr].
  unfold R. rewrite of_Z_spec, wB_eq. apply Z.mod_small. lia.
Qed.

(** The arrays after sieving with the numbers up to [p]. *)
Definition lo_at (p : Z) (lo : array int) : Prop := rep r lo (λ v, survivors v p).
Definition hi_at (p : Z) (hi : array int) : Prop := rep r hi (λ i, survivors (n / i) p).

Lemma lo_init :
  lo_at 1 (for_up full 1%uint63 R (λ v _, (v - 1)%uint63)
             (make (R + 1)%uint63 0%uint63)).
Proof.
  destruct root_spec as [_ Hr].
  eapply rep_ext;
    [|apply (for_up_spec r Hr (λ _, 0) (λ v, v - 1) _ R); rewrite ?to_Z_R, ?to_Z_1].
  - intros j Hj. cbv beta. rewrite to_Z_R, decide_True by lia.
    by rewrite survivors_init by lia.
  - lia.
  - intros k b Hk _. rewrite sub_spec, to_Z_1, wB_eq. apply Z.mod_small.
    pose proof (to_Z_bounded k). rewrite wB_eq in *. lia.
  - lia.
  - unfold full. lia.
  - eapply rep_ext; [|by apply rep_make]. intros j Hj. cbv beta.
    by rewrite decide_False by lia.
Qed.

Lemma hi_init :
  hi_at 1 (for_up full 1%uint63 R (λ i _, (N / i - 1)%uint63)
             (make (R + 1)%uint63 0%uint63)).
Proof.
  destruct root_spec as [Hn Hr].
  eapply rep_ext;
    [|apply (for_up_spec r Hr (λ _, 0) (λ i, n / i - 1) _ R); rewrite ?to_Z_R, ?to_Z_1].
  - intros j Hj. cbv beta. rewrite to_Z_R, decide_True by lia.
    rewrite survivors_init; [done|]. apply Z.div_le_lower_bound; nia.
  - lia.
  - intros k b Hk _. rewrite sub_spec, div_spec, to_Z_1, to_Z_N, wB_eq.
    apply Z.mod_small.
    assert (1 ≤ n / to_Z k) by (apply Z.div_le_lower_bound; nia).
    assert (n / to_Z k ≤ n) by (apply Z.div_le_upper_bound; nia). lia.
  - lia.
  - unfold full. lia.
  - eapply rep_ext; [|by apply rep_make]. intros j Hj. cbv beta.
    by rewrite decide_False by lia.
Qed.

Section Round.
Variables (p : int) (lo hi : array int).
Hypothesis p_range : 2 ≤ to_Z p ≤ r.
Hypothesis Hlo : lo_at (to_Z p - 1) lo.
Hypothesis Hhi : hi_at (to_Z p - 1) hi.

Lemma to_Z_pred : to_Z (p - 1)%uint63 = to_Z p - 1.
Proof.
  destruct root_spec as [_ Hr].
  rewrite sub_spec, to_Z_1, wB_eq. apply Z.mod_small. lia.
Qed.

Lemma to_Z_succ : to_Z (p + 1)%uint63 = to_Z p + 1.
Proof.
  destruct root_spec as [_ Hr].
  rewrite add_spec, to_Z_1, wB_eq. apply Z.mod_small. lia.
Qed.

Lemma to_Z_square : to_Z (p * p)%uint63 = to_Z p * to_Z p.
Proof.
  destruct root_spec as [_ Hr].
  rewrite mul_spec, wB_eq. apply Z.mod_small. nia.
Qed.

Lemma prime_test :
  (lo.[p] =? lo.[(p - 1)%uint63])%uint63 = false ↔ Z.prime (to_Z p).
Proof.
  pose proof (survivors_self (to_Z p) ltac:(lia)) as Hself.
  pose proof (rep_get r lo _ p Hlo ltac:(lia)) as Hp. cbv beta in Hp.
  pose proof (rep_get r lo _ (p - 1)%uint63 Hlo) as Hp1. cbv beta in Hp1.
  rewrite to_Z_pred in Hp1. specialize (Hp1 ltac:(lia)).
  rewrite eqb_false_spec. split.
  - intros Hne. destruct (decide (Z.prime (to_Z p))) as [|Hnp]; [done|].
    destruct Hne. apply to_Z_inj. lia.
  - intros Hpr Heq. rewrite decide_True in Hself by done.
    rewrite Heq in Hp. lia.
Qed.

Lemma lo_composite : ¬ Z.prime (to_Z p) → lo_at (to_Z p) lo.
Proof.
  intros Hnp. eapply rep_ext; [|exact Hlo]. intros j Hj. cbv beta.
  symmetry. apply survivors_composite; [lia | done].
Qed.

Lemma hi_composite : ¬ Z.prime (to_Z p) → hi_at (to_Z p) hi.
Proof.
  intros Hnp. eapply rep_ext; [|exact Hhi]. intros j Hj. cbv beta.
  symmetry. apply survivors_composite; [lia | done].
Qed.

Hypothesis p_prime : Z.prime (to_Z p).

Lemma c_value : to_Z lo.[(p - 1)%uint63] = survivors (to_Z p - 1) (to_Z p - 1).
Proof.
  pose proof (rep_get r lo _ (p - 1)%uint63 Hlo) as H. cbv beta in H.
  rewrite to_Z_pred in H. apply H. lia.
Qed.

(** One update: the new count from the old one, the old count at the
    quotient by [p] and the count below [p]. *)
Lemma update_value (x y : int) (v : Z) :
  to_Z p * to_Z p ≤ v < 2 ^ 42 →
  to_Z x = survivors v (to_Z p - 1) →
  to_Z y = survivors (v / to_Z p) (to_Z p - 1) →
  to_Z (x - (y - lo.[(p - 1)%uint63]))%uint63 = survivors v (to_Z p).
Proof.
  intros Hv Hx Hy.
  pose proof (survivors_step v (to_Z p) p_prime ltac:(lia)) as Hstep.
  assert (Hq : to_Z p ≤ v / to_Z p) by (apply Z.div_le_lower_bound; lia).
  pose proof (survivors_mono (to_Z p - 1) (v / to_Z p) (to_Z p - 1) ltac:(lia)).
  pose proof (survivors_bounds v (to_Z p)).
  pose proof (survivors_bounds v (to_Z p - 1)).
  pose proof (survivors_bounds (v / to_Z p) (to_Z p - 1)).
  pose proof (survivors_bounds (to_Z p - 1) (to_Z p - 1)).
  assert (v / to_Z p ≤ v) by (apply Z.div_le_upper_bound; nia).
  rewrite !sub_spec, c_value, Hx, Hy, wB_eq.
  rewrite (Z.mod_small (survivors (v / to_Z p) _ - _)) by lia.
  rewrite Z.mod_small by lia. lia.
Qed.

Lemma hi_prime :
  hi_at (to_Z p)
    (for_up full 1%uint63 (min63 R (N / (p * p))%uint63)
       (λ i hi, (hi.[i] - (part N R lo hi (i * p) - lo.[(p - 1)%uint63]))%uint63) hi).
Proof.
  destruct root_spec as [Hn Hr].
  assert (Hquot : to_Z (N / (p * p))%uint63 = n / (to_Z p * to_Z p))
    by (by rewrite div_spec, to_Z_N, to_Z_square).
  assert (Hq1 : 1 ≤ n / (to_Z p * to_Z p)) by (apply Z.div_le_lower_bound; nia).
  assert (Hlast : to_Z (min63 R (N / (p * p))%uint63) = Z.min r (n / (to_Z p * to_Z p))).
  { unfold min63. destruct (lebP R (N / (p * p))%uint63) as [Hle|Hgt];
      rewrite to_Z_R, Hquot in *; lia. }
  eapply rep_ext;
    [|apply (for_up_spec r Hr (λ i, survivors (n / i) (to_Z p - 1))
               (λ i, survivors (n / i) (to_Z p)) _ (min63 R (N / (p * p))%uint63));
      rewrite ?Hlast, ?to_Z_1].
  - intros j Hj. cbv beta. rewrite Hlast. destruct (decide (j ≤ _)); [done|].
    symmetry. apply survivors_small; [done|].
    apply Z.div_lt_upper_bound; [lia|].
    assert (n / (to_Z p * to_Z p) < j) by lia.
    pose proof (Z.mul_succ_div_gt n (to_Z p * to_Z p) ltac:(nia)). nia.
  - lia.
  - intros k b Hk Hb.
    assert (Hkpp : to_Z k * (to_Z p * to_Z p) ≤ n).
    { transitivity ((to_Z p * to_Z p) * (n / (to_Z p * to_Z p))); [nia|].
      apply Z.mul_div_le. nia. }
    assert (Hkp : to_Z (k * p)%uint63 = to_Z k * to_Z p).
    { rewrite mul_spec, wB_eq. apply Z.mod_small. nia. }
    assert (Hdd : n / to_Z k / to_Z p = n / (to_Z k * to_Z p))
      by (apply Z.div_div; lia).
    apply update_value.
    + split; [apply Z.div_le_lower_bound; nia|].
      assert (n / to_Z k ≤ n) by (apply Z.div_le_upper_bound; nia). lia.
    + rewrite (rep_get r b _ k Hb) by lia. cbv beta. by rewrite decide_False by lia.
    + rewrite Hdd. unfold part.
      destruct (lebP (k * p)%uint63 R) as [Hle|Hgt]; rewrite Hkp, to_Z_R in *.
      * rewrite (rep_get r b _ (k * p)%uint63 Hb) by (rewrite Hkp; nia).
        cbv beta. rewrite Hkp. by rewrite decide_False by nia.
      * assert (Hidx : to_Z (N / (k * p))%uint63 = n / (to_Z k * to_Z p))
          by (by rewrite div_spec, to_Z_N, Hkp).
        rewrite (rep_get r lo _ (N / (k * p))%uint63 Hlo); rewrite Hidx; [done|].
        split; [apply Z.div_le_lower_bound; nia|].
        assert (n / (to_Z k * to_Z p) < r + 1); [|lia].
        apply Z.div_lt_upper_bound; nia.
  - lia.
  - unfold full. lia.
  - eapply rep_ext; [|exact Hhi]. intros j Hj. cbv beta.
    by rewrite decide_False by lia.
Qed.

Lemma lo_prime :
  lo_at (to_Z p)
    (for_down full R (p * p)%uint63
       (λ v lo', (lo'.[v] - (lo'.[(v / p)%uint63] - lo.[(p - 1)%uint63]))%uint63) lo).
Proof.
  destruct root_spec as [Hn Hr].
  destruct (decide (r < to_Z p * to_Z p)) as [Hbig|Hsmall].
  { rewrite for_down_skip by (by rewrite to_Z_R, to_Z_square).
    eapply rep_ext; [|exact Hlo]. intros j Hj. cbv beta.
    symmetry. apply survivors_small; [done | lia]. }
  eapply rep_ext;
    [|apply (for_down_spec r Hr (λ v, survivors v (to_Z p - 1))
               (λ v, survivors v (to_Z p)) _ (p * p)%uint63);
      rewrite ?to_Z_square, ?to_Z_R].
  - intros j Hj. cbv beta. rewrite to_Z_square. destruct (decide (_ ≤ j)); [done|].
    symmetry. apply survivors_small; [done | lia].
  - nia.
  - intros k b Hk Hb.
    assert (Hkp : to_Z (k / p)%uint63 = to_Z k / to_Z p) by apply div_spec.
    assert (Hq : to_Z p ≤ to_Z k / to_Z p) by (apply Z.div_le_lower_bound; lia).
    assert (Hqk : to_Z k / to_Z p ≤ to_Z k) by (apply Z.div_le_upper_bound; nia).
    apply update_value.
    + lia.
    + rewrite (rep_get r b _ k Hb) by lia. cbv beta. by rewrite decide_False by lia.
    + rewrite (rep_get r b _ (k / p)%uint63 Hb) by (rewrite Hkp; lia).
      cbv beta. rewrite Hkp. by rewrite decide_False by lia.
  - lia.
  - unfold full. lia.
  - eapply rep_ext; [|exact Hlo]. intros j Hj. cbv beta.
    by rewrite decide_False by lia.
Qed.

End Round.

Lemma sieve_loop_spec fuel :
  ∀ (p : int) (lo hi : array int),
    2 ≤ to_Z p ≤ r + 1 → r + 1 - to_Z p ≤ Z.of_nat fuel →
    lo_at (to_Z p - 1) lo → hi_at (to_Z p - 1) hi →
    hi_at r (snd (sieve_loop fuel full N R p lo hi)).
Proof.
  destruct root_spec as [Hn Hr].
  induction fuel as [|fuel IH]; intros p lo hi Hp Hfuel Hlo Hhi.
  { cbv beta. by replace r with (to_Z p - 1) at 1 by lia. }
  cbn [sieve_loop]. destruct (lebP p R) as [Hle|Hgt]; rewrite to_Z_R in *.
  - assert (Hp' : 2 ≤ to_Z p ≤ r) by lia.
    assert (Hnext : to_Z (p + 1)%uint63 - 1 = to_Z p)
      by (rewrite (to_Z_succ p Hp'); lia).
    destruct (lo.[p] =? lo.[(p - 1)%uint63])%uint63 eqn:Htest.
    + assert (Hnp : ¬ Z.prime (to_Z p)).
      { intros Hpr%(prime_test p lo Hp' Hlo). congruence. }
      apply IH; rewrite ?Hnext;
        [rewrite (to_Z_succ p Hp'); lia | rewrite (to_Z_succ p Hp'); lia
        | by apply lo_composite | by apply hi_composite].
    + apply (prime_test p lo Hp' Hlo) in Htest.
      cbv zeta. rewrite if_same.
      apply IH; rewrite ?Hnext;
        [rewrite (to_Z_succ p Hp'); lia | rewrite (to_Z_succ p Hp'); lia
        | by apply lo_prime | by apply hi_prime].
  - cbv beta. by replace r with (to_Z p - 1) at 1 by lia.
Qed.

(** The array count is the number of primes up to [n]. *)
Lemma count_by_quotients_spec : count_by_quotients n = primes_upto n.
Proof.
  destruct root_spec as [Hn Hr]. unfold count_by_quotients. fold r N R full.
  pose proof (sieve_loop_spec full 2%uint63 _ _
                ltac:(change (to_Z 2) with 2; lia)
                ltac:(change (to_Z 2) with 2; unfold full; lia)
                lo_init hi_init) as Hfinal.
  rewrite (rep_get r _ _ 1%uint63 Hfinal) by (change (to_Z 1) with 1; lia).
  cbv beta. change (to_Z 1) with 1. rewrite Z.div_1_r.
  apply survivors_final; lia.
Qed.

End QuotientSieve.

Lemma prime_count_by_quotients n : 2 ≤ n < 2 ^ 42 → prime_count n = count_by_quotients (n - 1).
Proof.
  intros Hn. rewrite count_by_quotients_spec by lia.
  rewrite primes_upto_prime_count by lia. f_equal. lia.
Qed.

Lemma quotient_table :
  count_by_quotients 9 = 4 ∧ count_by_quotients 99 = 25 ∧ count_by_quotients 999 = 168 ∧ count_by_quotients 9999 = 1229 ∧
  count_by_quotients 99999 = 9592 ∧ count_by_quotients 999999 = 78498 ∧ count_by_quotients 9999999 = 664579 ∧
  count_by_quotients 99999999 = 5761455 ∧ count_by_quotients 999999999 = 50847534 ∧
  count_by_quotients 9999999999 = 455052511.
Proof. repeat apply conj; vm_compute; reflexivity. Qed.

(** ** What holds of every run, whatever the limit *)

(** A sieve as some run can show it: constructed, then stepped. *)
Definition reachable (limit workers : Z) (s : prime_sieve) : Prop :=
  ∃ s0 sched st,
    prime_sieve_ctor limit workers = Some s0 ∧
    exec sched (spawn s0) = Some st ∧ s = shared st.

(** A step of a runner writes at most one cell, and writes 0. *)
Lemma runner_step_write size threads bits r bits' r' :
  runner_step size threads bits r = Some (bits', r') →
  bits' = bits ∨
  ∃ i, (i < length bits)%nat ∧ bits' = <[i := 0]> bits.
Proof.
  unfold runner_step. intros Hstep.
  assert (Hset : ∀ j b, vec_set bits j 0 = Some b →
            ∃ i, (i < length bits)%nat ∧ b = <[i := 0]> bits).
  { intros j b Hb. apply vec_set_zero in Hb as (Hj & -> & _).
    exists (Z.to_nat j). split; [lia | done]. }
  destruct (at_ r); repeat case_decide;
    repeat match type of Hstep with
           | context [vec_set bits ?j 0] =>
               destruct (vec_set bits j 0) as [b|] eqn:Hb; simpl in Hstep; [|done]
           | context [vec_get bits ?j] =>
               destruct (vec_get bits j) as [c|]; simpl in Hstep; [|done];
               repeat case_decide
           end;
    injection Hstep as <- <-; eauto.
Qed.

Lemma write_no_reset bits bits' :
  (bits' = bits ∨ ∃ i, (i < length bits)%nat ∧ bits' = <[i := 0]> bits) →
  no_reset bits bits'.
Proof.
  intros [->|(i & Hi & ->)]; [apply no_reset_refl|].
  split; [apply length_insert|]. intros j.
  destruct (decide (j = i)) as [->|].
  - right. by apply list_lookup_insert_eq.
  - left. by apply list_lookup_insert_ne.
Qed.

Lemma step_shape st tid st' :
  step st tid = Some st' →
  Size (shared st') = Size (shared st) ∧
  Threads (shared st') = Threads (shared st) ∧
  no_reset (Bits (shared st)) (Bits (shared st')).
Proof.
  unfold step. destruct (pool st !! tid) as [r|].
  - destruct (runner_step _ _ _ r) as [[bits' r']|] eqn:Hstep; [|done].
    simpl. intros [= <-]. simpl. split_and!; [done..|].
    eapply write_no_reset, runner_step_write. done.
  - intros [= <-]. split_and!; [done..|apply no_reset_refl].
Qed.

Lemma exec_shape sched st st' :
  exec sched st = Some st' →
  Size (shared st') = Size (shared st) ∧
  Threads (shared st') = Threads (shared st) ∧
  no_reset (Bits (shared st)) (Bits (shared st')).
Proof.
  revert st. induction sched as [|tid sched IH]; intros st; simpl.
  - intros [= <-]. split_and!; [done..|apply no_reset_refl].
  - destruct (step st tid) as [st1|] eqn:Hstep; [|done]. simpl. intros Hexec.
    destruct (step_shape _ _ _ Hstep) as (Hs1 & Ht1 & Hn1).
    destruct (IH _ Hexec) as (Hs2 & Ht2 & Hn2).
    split_and!; [congruence.. | by eapply no_reset_trans].
Qed.

Lemma reachable_shape limit workers s :
  reachable limit workers s →
  2 ≤ limit ∧ Size s = limit ∧ Threads s = workers ∧
  Z.of_nat (length (Bits s)) = limit / 2.
Proof.
  intros (s0 & sched & st & Hc & Hexec & ->).
  pose proof (ctor_some _ _ _ Hc) as Hlimit.
  destruct (exec_shape _ _ _ Hexec) as (Hsz & Hth & [Hlen _]).
  unfold prime_sieve_ctor in Hc.
  destruct (vec_set _ 0 0) as [bits|] eqn:Hset; [|done]. simpl in Hc.
  injection Hc as <-. simpl in *.
  apply vec_set_zero in Hset as (_ & -> & _).
  rewrite length_insert, length_replicate in Hlen.
  split_and!; [done | done | done |]. rewrite Hlen, shiftr_1. dlia.
Qed.

Lemma run_reachable limit workers sched s :
  run limit workers sched = Some s → reachable limit workers s.
Proof.
  unfold run. destruct (prime_sieve_ctor limit workers) as [s0|] eqn:Hc; [|done].
  simpl. destruct (exec sched (spawn s0)) as [st|] eqn:Hexec; [|done]. simpl.
  destruct (joined st); [|done]. intros [= <-]. by exists s0, sched, st.
Qed.

(** * The properties of the specification *)

Lemma run_cells n t sched s :
  2 ≤ n < 2 ^ 52 → 1 ≤ t → run n t sched = Some s →
  ∀ i, 0 ≤ i → 2 * i + 1 < n →
    vec_get (Bits s) i = Some (if trial_division (2 * i + 1) then 1 else 0).
Proof.
  intros Hn Ht Hrun i Hi Hlt.
  rewrite (run_result n t Hn Ht sched s Hrun). simpl.
  by apply expected_bits_lookup.
Qed.

Lemma documented_count n c :
  find n resultsDictionary = Some c → prime_count n = c.
Proof.
  destruct quotient_table
    as (H1 & H2 & H3 & H4 & H5 & H6 & H7 & H8 & H9 & H10).
  unfold resultsDictionary, find. intros Hfind.
  repeat (case_decide;
          [subst n; injection Hfind as <-;
           rewrite prime_count_by_quotients by lia; assumption|]).
  discriminate.
Qed.

(** C1.  After a run has joined, cell [i] holds 1 exactly when [2i+1] is
    prime, for every [i] with [2i+1] below the limit; hence [countPrimes]
    is the number of primes below the limit, and for every limit of the
    table it is the documented count (4 for 10, 25 for 100, 168 for 1000,
    78498 for 1000000, and so on up to 455052511 for 10000000000).  Every
    schedule can be continued to a joined run, and none performs an
    undefined access. *)
Theorem run_leaves_exactly_the_primes (n t : Z) :
  2 ≤ n < 2 ^ 52 → 1 ≤ t →
  (∀ prefix, ∃ rest s, run n t (prefix ++ rest) = Some s) ∧
  ∀ sched s, run n t sched = Some s →
    (∀ i, 0 ≤ i → 2 * i + 1 < n →
       (vec_get (Bits s) i = Some 1 ↔ Z.prime (2 * i + 1)) ∧
       (vec_get (Bits s) i = Some 0 ↔ ¬ Z.prime (2 * i + 1))) ∧
    (3 ≤ n → countPrimes s = prime_count n) ∧
    (∀ c, find n resultsDictionary = Some c → countPrimes s = c).
Proof.
  intros Hn Ht. split; [by apply run_total|].
  intros sched s Hrun. split_and!.
  - intros i Hi Hlt. rewrite (run_cells n t sched s Hn Ht Hrun i Hi Hlt).
    destruct (trial_division (2 * i + 1)) eqn:Htd.
    + apply trial_division_prime in Htd. split; split; done.
    + assert (¬ Z.prime (2 * i + 1)).
      { intros Hp%trial_division_prime. congruence. }
      split; split; done.
  - intros H3. rewrite (run_result n t Hn Ht sched s Hrun).
    by apply countPrimes_prime_count.
  - intros c Hfind. rewrite (run_result n t Hn Ht sched s Hrun).
    assert (10 ≤ n).
    { revert Hfind. unfold resultsDictionary, find.
      repeat (case_decide; [lia|]). done. }
    rewrite countPrimes_prime_count by lia. by apply documented_count.
Qed.

Lemma run_leaves_exactly_the_primes_witness :
  ∃ s, run 100 2 (round_robin 2 200) = Some s ∧
       (vec_get (Bits s) 48 = Some 1 ↔ Z.prime 97) ∧
       (vec_get (Bits s) 49 = Some 0 ↔ ¬ Z.prime 99) ∧
       countPrimes s = prime_count 100 ∧ countPrimes s = 25.
Proof.
  destruct (run_leaves_exactly_the_primes 100 2 ltac:(lia) ltac:(lia)) as [_ H].
  eexists. split; [vm_compute; reflexivity|].
  match goal with |- context [Bits ?s] =>
    destruct (H (round_robin 2 200) s ltac:(vm_compute; reflexivity))
      as (Hcells & Hcount & Htable)
  end.
  split_and!.
  - apply (Hcells 48); lia.
  - apply (Hcells 49); lia.
  - apply Hcount. lia.
  - apply Htable. reflexivity.
Defined.

(** C2.  For every limit, joined runs with any two positive worker
    counts, in particular 1, 2, 4 and 8, and under any schedules, end with
    the same vector, hence the same [countPrimes] and the same answers of
    [isPrime]; and for each such worker count runs do join. *)
Theorem worker_count_does_not_matter (n : Z) :
  2 ≤ n < 2 ^ 52 →
  (∀ t, t ∈ [1; 2; 4; 8] → ∀ prefix, ∃ rest s, run n t (prefix ++ rest) = Some s) ∧
  ∀ t1 t2 sched1 sched2 s1 s2,
    1 ≤ t1 → 1 ≤ t2 →
    run n t1 sched1 = Some s1 → run n t2 sched2 = Some s2 →
    Bits s1 = Bits s2 ∧ countPrimes s1 = countPrimes s2 ∧
    ∀ m, isPrime s1 m = isPrime s2 m.
Proof.
  intros Hn. split.
  - intros t Ht. apply run_total; [done|].
    repeat (apply elem_of_cons in Ht as [->|Ht]; [lia|]).
    by apply elem_of_nil in Ht.
  - intros t1 t2 sched1 sched2 s1 s2 Ht1 Ht2 Hrun1 Hrun2.
    rewrite (run_result n t1 Hn Ht1 sched1 s1 Hrun1).
    rewrite (run_result n t2 Hn Ht2 sched2 s2 Hrun2).
    done.
Qed.

Lemma worker_count_does_not_matter_witness :
  ∃ s1 s8, run 50 1 (round_robin 1 200) = Some s1 ∧
           run 50 8 (round_robin 8 200) = Some s8 ∧
           Bits s1 = Bits s8 ∧ countPrimes s1 = countPrimes s8 ∧
           ∀ m, isPrime s1 m = isPrime s8 m.
Proof.
  destruct (worker_count_does_not_matter 50 ltac:(lia)) as [_ H].
  do 2 eexists. split; [vm_compute; reflexivity|].
  split; [vm_compute; reflexivity|].
  eapply (H 1 8 (round_robin 1 200) (round_robin 8 200));
    [lia | lia | vm_compute; reflexivity | vm_compute; reflexivity].
Defined.

(** C3, as the code has it.  After a run, [isPrime n] agrees with trial
    division for every [n] below the limit other than 2; for 2 it answers
    false, as for every even number.  At limit 10 the numbers it reports are
    exactly 3, 5 and 7. *)
Theorem isPrime_agrees_except_two (n t : Z) (sched : list nat) (s : prime_sieve) :
  2 ≤ n < 2 ^ 52 → 1 ≤ t → run n t sched = Some s →
  (∀ m, 0 ≤ m < n → m ≠ 2 → isPrime s m = Some (trial_division m)) ∧
  isPrime s 2 = Some false ∧
  (n = 10 → ∀ m, 0 ≤ m < 10 → (isPrime s m = Some true ↔ m ∈ [3; 5; 7])).
Proof.
  intros Hn Ht Hrun.
  assert (Hagree : ∀ m, 0 ≤ m < n → m ≠ 2 → isPrime s m = Some (trial_division m)).
  { intros m Hm Hm2. unfold isPrime. rewrite land_1.
    destruct (decide (m mod 2 = 0)) as [Heven|Hodd].
    - destruct (decide (m < 3)).
      + assert (m = 0) as -> by dlia. done.
      + by rewrite even_not_prime by (done || lia).
    - rewrite shiftr_1.
      rewrite (run_cells n t sched s Hn Ht Hrun (m / 2)) by dlia.
      replace (2 * (m / 2) + 1) with m by dlia. simpl.
      by destruct (trial_division m). }
  split_and!; [done | done |].
  intros -> m Hm.
  assert (Hcases : m = 0 ∨ m = 1 ∨ m = 2 ∨ m = 3 ∨ m = 4 ∨ m = 5 ∨ m = 6 ∨
                   m = 7 ∨ m = 8 ∨ m = 9) by lia.
  rewrite !elem_of_cons, elem_of_nil.
  destruct (decide (m = 2)) as [->|Hm2].
  - split; [done | lia].
  - rewrite (Hagree m) by done.
    repeat (destruct Hcases as [->|Hcases]); try subst m;
      vm_compute (trial_division _);
      (split; intros H; first [discriminate H | reflexivity | lia | exfalso; lia]).
Qed.

Lemma isPrime_agrees_except_two_witness :
  ∃ s, run 10 2 (round_robin 2 30) = Some s ∧
       isPrime s 7 = Some (trial_division 7) ∧
       isPrime s 2 = Some false ∧
       (isPrime s 5 = Some true ↔ 5 ∈ [3; 5; 7]).
Proof.
  eexists. split; [vm_compute; reflexivity|].
  match goal with |- context [isPrime ?s] =>
    destruct (isPrime_agrees_except_two 10 2 (round_robin 2 30) s
                ltac:(lia) ltac:(lia) ltac:(vm_compute; reflexivity))
      as (Hagree & Htwo & Hten)
  end.
  split_and!; [apply Hagree; lia | exact Htwo | apply Hten; [reflexivity | lia]].
Defined.

(** C3 as stated fails at 2: trial division finds 2 prime, [isPrime] says
    false. *)
Lemma isPrime_misses_two :
  ∃ s, run 10 1 (round_robin 1 30) = Some s ∧
       0 ≤ 2 < 10 ∧ trial_division 2 = true ∧ isPrime s 2 = Some false.
Proof.
  eexists. split; [vm_compute; reflexivity|].
  split_and!; [lia | lia | reflexivity | reflexivity].
Qed.

(** C4.  On every sieve a run can show and every [n] below the limit,
    [isPrime n] is the value of cell [(n-1)/2] when [n] is odd, and false
    when [n] is even, 2 included. *)
Theorem isPrime_reads_the_odd_cell (limit workers : Z) (s : prime_sieve) (n : Z) :
  reachable limit workers s → 0 ≤ n < limit →
  (n mod 2 = 1 →
     ∃ c, Bits s !! Z.to_nat ((n - 1) / 2) = Some c ∧
          isPrime s n = Some (bool_decide (c ≠ 0))) ∧
  (n mod 2 = 0 → isPrime s n = Some false) ∧
  isPrime s 2 = Some false.
Proof.
  intros Hreach Hn.
  destruct (reachable_shape _ _ _ Hreach) as (_ & _ & _ & Hlen).
  unfold isPrime. rewrite land_1. split_and!; [| |done].
  - intros Hodd. rewrite decide_False by lia.
    destruct (lookup_lt_is_Some_2 (Bits s) (Z.to_nat ((n - 1) / 2))) as [c Hc]; [dlia|].
    exists c. split; [done|]. unfold vec_get.
    rewrite decide_True, shiftr_1 by (rewrite shiftr_1; dlia).
    replace (n / 2) with ((n - 1) / 2) by dlia. by rewrite Hc.
  - intros Heven. by rewrite decide_True.
Qed.

Lemma isPrime_reads_the_odd_cell_witness :
  ∃ s, run 30 2 (round_robin 2 60) = Some s ∧
       (∃ c, Bits s !! Z.to_nat ((9 - 1) / 2) = Some c ∧
             isPrime s 9 = Some (bool_decide (c ≠ 0))) ∧
       isPrime s 8 = Some false ∧ isPrime s 2 = Some false.
Proof.
  eexists. split; [vm_compute; reflexivity|].
  match goal with |- context [isPrime ?s] =>
    assert (Hreach : reachable 30 2 s)
      by (apply (run_reachable 30 2 (round_robin 2 60)); vm_compute; reflexivity);
    pose proof (isPrime_reads_the_odd_cell 30 2 s 9 Hreach ltac:(lia)) as (H9 & _ & H2);
    pose proof (isPrime_reads_the_odd_cell 30 2 s 8 Hreach ltac:(lia)) as (_ & H8 & _)
  end.
  split_and!; [apply H9; reflexivity | apply H8; reflexivity | exact H2].
Defined.

(** C5, as the code has it.  For every limit from 2 on and every worker
    count, the constructor yields [floor(limit/2)] cells, one per odd number
    below the limit (cell [i] for [2i+1]), cell 0 holding 0 and every other
    cell 1. *)
Theorem ctor_allocates_the_odd_cells (n t : Z) :
  2 ≤ n →
  ∃ s, prime_sieve_ctor n t = Some s ∧ Size s = n ∧ Threads s = t ∧
       Z.of_nat (length (Bits s)) = n / 2 ∧
       (∀ i, 0 ≤ i → (i < n / 2 ↔ 2 * i + 1 < n)) ∧
       vec_get (Bits s) 0 = Some 0 ∧
       ∀ i, 1 ≤ i < n / 2 → vec_get (Bits s) i = Some 1.
Proof.
  intros Hn. unfold prime_sieve_ctor.
  assert (Hlen : Z.of_nat (length (replicate (Z.to_nat (n ≫ 1)) 1)) = n / 2).
  { rewrite length_replicate, shiftr_1. dlia. }
  rewrite vec_set_in_range by dlia. simpl. eexists. split; [done|]. simpl.
  split_and!; [done | done | by rewrite length_insert | intros; dlia | |].
  - unfold vec_get. simpl. apply list_lookup_insert_eq. dlia.
  - intros i Hi. unfold vec_get. rewrite decide_True by lia.
    rewrite list_lookup_insert_ne by lia.
    apply lookup_replicate_2. rewrite shiftr_1. dlia.
Qed.

Lemma ctor_allocates_the_odd_cells_witness :
  ∃ s, prime_sieve_ctor 11 4 = Some s ∧ Size s = 11 ∧ Threads s = 4 ∧
       Z.of_nat (length (Bits s)) = 11 / 2 ∧
       (∀ i, 0 ≤ i → (i < 11 / 2 ↔ 2 * i + 1 < 11)) ∧
       vec_get (Bits s) 0 = Some 0 ∧
       ∀ i, 1 ≤ i < 11 / 2 → vec_get (Bits s) i = Some 1.
Proof. apply (ctor_allocates_the_odd_cells 11 4). lia. Defined.

(** C5 as stated fails at limit 3: one cell, where [ceil(3/2)] is 2. *)
Lemma ctor_is_floor_not_ceiling :
  ∃ s, prime_sieve_ctor 3 1 = Some s ∧
       Z.of_nat (length (Bits s)) = 1 ∧ (3 + 1) / 2 = 2 ∧
       Z.of_nat (length (Bits s)) ≠ (3 + 1) / 2.
Proof.
  eexists. split; [reflexivity|]. split_and!; [reflexivity | reflexivity | done].
Qed.

(** C6, as the code has it.  After a run, limit 2 and limit 3 both give
    count 1, the number 2 alone (no odd cell is set: the limit is
    exclusive, and 3 has no cell at limit 3); limit 4 gives count 2, the
    primes 2 and 3. *)
Theorem small_limits (t : Z) :
  1 ≤ t →
  (∀ n, 2 ≤ n ≤ 4 → ∃ sched s, run n t sched = Some s) ∧
  ∀ sched s,
    (run 2 t sched = Some s → countPrimes s = 1 ∧ Bits s = [0]) ∧
    (run 3 t sched = Some s → countPrimes s = 1 ∧ Bits s = [0]) ∧
    (run 4 t sched = Some s →
       countPrimes s = 2 ∧ Bits s = [0; 1] ∧ isPrime s 3 = Some true).
Proof.
  intros Ht. split.
  - intros n Hn. destruct (run_total n t ltac:(lia) Ht []) as (rest & s & Hrun).
    by exists rest, s.
  - intros sched s. split_and!; intros Hrun.
    + by rewrite (run_result 2 t ltac:(lia) Ht sched s Hrun).
    + by rewrite (run_result 3 t ltac:(lia) Ht sched s Hrun).
    + by rewrite (run_result 4 t ltac:(lia) Ht sched s Hrun).
Qed.

Lemma small_limits_witness :
  (∃ s, run 2 1 (round_robin 1 5) = Some s ∧ countPrimes s = 1 ∧ Bits s = [0]) ∧
  (∃ s, run 3 1 (round_robin 1 5) = Some s ∧ countPrimes s = 1 ∧ Bits s = [0]) ∧
  (∃ s, run 4 1 (round_robin 1 5) = Some s ∧
        countPrimes s = 2 ∧ Bits s = [0; 1] ∧ isPrime s 3 = Some true).
Proof.
  destruct (small_limits 1 ltac:(lia)) as [_ H].
  split_and!; (eexists; split; [vm_compute; reflexivity|]);
    match goal with |- context [countPrimes ?s] =>
      destruct (H (round_robin 1 5) s) as (H2 & H3 & H4)
    end.
  - apply H2. vm_compute; reflexivity.
  - apply H3. vm_compute; reflexivity.
  - apply H4. vm_compute; reflexivity.
Defined.

(** C6 as stated fails at limit 3: the count is 1, not 2, and 3 has no
    cell. *)
Lemma limit_three_counts_one :
  ∃ s, run 3 1 (round_robin 1 5) = Some s ∧
       countPrimes s = 1 ∧ countPrimes s ≠ 2 ∧ isPrime s 3 = None.
Proof.
  eexists. split; [vm_compute; reflexivity|].
  split_and!; [reflexivity | done | reflexivity].
Qed.

Lemma find_not_key key m : key ∉ (fst <$> m) → find key m = None.
Proof.
  induction m as [|[k v] m IH]; simpl; [done|].
  intros Hnot. apply not_elem_of_cons in Hnot as [Hne Hnot].
  rewrite decide_False by done. by apply IH.
Qed.

Lemma find_entry key v m :
  NoDup (fst <$> m) → (key, v) ∈ m → find key m = Some v.
Proof.
  induction m as [|[k w] m IH]; simpl; intros Hnd Hin.
  - by apply elem_of_nil in Hin.
  - apply list.NoDup_cons in Hnd as [Hk Hnd].
    apply elem_of_cons in Hin as [[= -> ->]|Hin].
    + by rewrite decide_True.
    + rewrite decide_False; [by apply IH|].
      intros ->. apply Hk. apply list_elem_of_fmap. by exists (key, v).
Qed.

Lemma resultsDictionary_keys : NoDup (fst <$> resultsDictionary).
Proof.
  unfold resultsDictionary. simpl.
  repeat (apply list.NoDup_cons; split;
          [rewrite ?elem_of_cons, elem_of_nil; lia|]).
  apply base.NoDup_nil_2.
Qed.

(** C7.  [validateResults] is false when the limit is no key of the table
    (limit 11 for one), and otherwise tells whether the stored count equals
    [countPrimes] (true at limit 1000 when the count is 168). *)
Theorem validateResults_checks_the_table (s : prime_sieve) :
  (Size s ∉ (fst <$> resultsDictionary) → validateResults s = false) ∧
  (∀ c, (Size s, c) ∈ resultsDictionary →
        validateResults s = bool_decide (c = countPrimes s)) ∧
  (Size s = 11 → validateResults s = false) ∧
  (Size s = 1000 → countPrimes s = 168 → validateResults s = true).
Proof.
  unfold validateResults. split_and!.
  - intros Hnot. by rewrite find_not_key.
  - intros c Hin. by rewrite (find_entry _ c) by (apply resultsDictionary_keys || done).
  - intros ->. reflexivity.
  - intros -> Hcount. simpl. by rewrite bool_decide_eq_true_2.
Qed.

Lemma validateResults_checks_the_table_witness :
  validateResults (mk_sieve (expected_bits 11) 11 1) = false ∧
  validateResults (mk_sieve (expected_bits 1000) 1000 1) = true ∧
  validateResults (mk_sieve (expected_bits 100) 100 1)
    = bool_decide (25 = countPrimes (mk_sieve (expected_bits 100) 100 1)).
Proof.
  split_and!.
  - destruct (validateResults_checks_the_table (mk_sieve (expected_bits 11) 11 1))
      as (_ & _ & H11 & _).
    apply H11. reflexivity.
  - destruct (validateResults_checks_the_table (mk_sieve (expected_bits 1000) 1000 1))
      as (_ & _ & _ & H1000).
    apply H1000; [reflexivity | vm_compute; reflexivity].
  - destruct (validateResults_checks_the_table (mk_sieve (expected_bits 100) 100 1))
      as (_ & Hkey & _ & _).
    apply Hkey. unfold resultsDictionary. cbn [Size]. rewrite !elem_of_cons. tauto.
Defined.

(** C8.  A step of a runner leaves the vector as it is or writes 0 into one
    cell; so over any schedule a cell keeps its value or goes to 0, a cell
    at 0 stays at 0, and striking a cell a second time changes nothing. *)
Theorem marking_never_resets :
  (∀ size threads bits r bits' r',
     runner_step size threads bits r = Some (bits', r') →
     bits' = bits ∨ ∃ i, (i < length bits)%nat ∧ bits' = <[i := 0]> bits) ∧
  (∀ sched st st',
     exec sched st = Some st' →
     length (Bits (shared st')) = length (Bits (shared st)) ∧
     ∀ i, (Bits (shared st') !! i = Bits (shared st) !! i ∨
           Bits (shared st') !! i = Some 0) ∧
          (Bits (shared st) !! i = Some 0 → Bits (shared st') !! i = Some 0)) ∧
  (∀ bits i bits1 bits2,
     vec_set bits i 0 = Some bits1 → vec_set bits1 i 0 = Some bits2 →
     vec_get bits1 i = Some 0 ∧ bits2 = bits1).
Proof.
  split_and!.
  - apply runner_step_write.
  - intros sched st st' Hexec.
    destruct (exec_shape _ _ _ Hexec) as (_ & _ & Hnr).
    split; [apply Hnr|]. intros i. split; [apply Hnr|].
    by apply no_reset_zero.
  - intros bits i bits1 bits2 H1 H2.
    apply vec_set_zero in H1 as (Hi & -> & _ & Hz).
    apply vec_set_zero in H2 as (_ & -> & _).
    split.
    + unfold vec_get. by rewrite decide_True by lia.
    + by rewrite list_insert_insert_eq.
Qed.

Lemma marking_never_resets_witness :
  ∃ s0 st, prime_sieve_ctor 30 2 = Some s0 ∧
           exec (round_robin 2 7) (spawn s0) = Some st ∧
           (Bits s0 !! 4%nat = Some 1 ∧ Bits (shared st) !! 4%nat = Some 0) ∧
           (Bits s0 !! 0%nat = Some 0 → Bits (shared st) !! 0%nat = Some 0) ∧
           length (Bits (shared st)) = length (Bits s0).
Proof.
  destruct marking_never_resets as (_ & Hexec & _).
  do 2 eexists. split; [reflexivity|]. split; [vm_compute; reflexivity|].
  match goal with |- context [shared ?st] =>
    match goal with |- context [Bits ?s0 !! 4%nat = Some 1] =>
      destruct (Hexec (round_robin 2 7) (spawn s0) st ltac:(vm_compute; reflexivity))
        as [Hlen Hcells]
    end
  end.
  split_and!; [reflexivity | reflexivity | apply (Hcells 0%nat) | exact Hlen].
Defined.

(** C10.  [isPrime] reads [Bits] unchecked.  On every sieve a run can show,
    the limit is at least 2, there are [floor(limit/2)] cells, the read is
    inside the vector for every [n] below the limit (the index of an odd [n]
    is [(n-1)/2], below [floor(limit/2)]), and it is outside for every odd
    [n] from the limit on. *)
Theorem isPrime_reads_in_bounds_below_limit (limit workers : Z) (s : prime_sieve) :
  reachable limit workers s →
  2 ≤ limit ∧ Z.of_nat (length (Bits s)) = limit / 2 ∧
  (∀ n, 0 ≤ n < limit → n mod 2 = 1 →
        n ≫ 1 = (n - 1) / 2 ∧ 0 ≤ (n - 1) / 2 < limit / 2) ∧
  (∀ n, 0 ≤ n < limit → ∃ b, isPrime s n = Some b) ∧
  (∀ n, limit ≤ n → n mod 2 = 1 →
        Z.of_nat (length (Bits s)) ≤ n ≫ 1 ∧ isPrime s n = None).
Proof.
  intros Hreach.
  destruct (reachable_shape _ _ _ Hreach) as (Hlimit & _ & _ & Hlen).
  split_and!; [done | done | intros n Hn Hodd; rewrite shiftr_1; dlia | |].
  - intros n Hn. unfold isPrime. rewrite land_1.
    destruct (decide (n mod 2 = 0)); [by eexists|].
    destruct (vec_get_in_range (Bits s) (n ≫ 1)) as [c ->];
      [rewrite shiftr_1; dlia | by eexists].
  - intros n Hn Hodd. split; [rewrite shiftr_1; dlia|].
    unfold isPrime, vec_get. rewrite land_1, decide_False by lia.
    rewrite decide_True by (rewrite shiftr_1; dlia).
    rewrite (proj2 (lookup_ge_None _ _)); [done|]. rewrite shiftr_1. dlia.
Qed.

Lemma isPrime_reads_in_bounds_below_limit_witness :
  ∃ s, run 30 2 (round_robin 2 60) = Some s ∧
       (∃ b, isPrime s 29 = Some b) ∧ isPrime s 31 = None ∧
       Z.of_nat (length (Bits s)) = 30 / 2.
Proof.
  eexists. split; [vm_compute; reflexivity|].
  match goal with |- context [isPrime ?s] =>
    destruct (isPrime_reads_in_bounds_below_limit 30 2 s
                ltac:(apply (run_reachable 30 2 (round_robin 2 60));
                      vm_compute; reflexivity))
      as (_ & Hlen & _ & Hin & Hout)
  end.
  split_and!; [apply Hin; lia | apply Hout; [lia | reflexivity] | exact Hlen].
Defined.

(** ** The first round of worker 0 *)

Section FirstRound.
Variables n t : Z.
Hypothesis limit_range : 2 ≤ n < 2 ^ 52.


Hypothesis workers_pos : 1 ≤ t.


End FirstRound.




(** * Further properties of the sieve *)

(** ** Counting over any vector *)

Lemma count_cells_le (l l' : list Z) (a a' : Z) :
  length l' = length l → (∀ i, l' !! i = l !! i ∨ l' !! i = Some 0) → a' ≤ a →
  fold_left (λ count c, if decide (c = 0) then count else count + 1) l' a'
  ≤ fold_left (λ count c, if decide (c = 0) then count else count + 1) l a.
Proof.
  revert l' a a'. induction l as [|x l IH]; intros [|x' l'] a a' Hlen Hcells Ha;
    simpl in *; try done.
  apply IH; [lia | intros i; apply (Hcells (S i)) |].
  destruct (Hcells 0%nat) as [[= ->]|[= ->]]; repeat case_decide; lia.
Qed.

Lemma countPrimes_no_reset s s' :
  Size s' = Size s → no_reset (Bits s) (Bits s') → countPrimes s' ≤ countPrimes s.
Proof.
  intros Hsz [Hlen Hcells]. unfold countPrimes. rewrite Hsz.
  apply count_cells_le; [by rewrite !length_drop, Hlen | | lia].
  intros i. rewrite !lookup_drop. apply Hcells.
Qed.

Lemma count_cells_ones (k : nat) (a : Z) :
  fold_left (λ count c, if decide (c = 0) then count else count + 1) (replicate k 1) a
  = a + Z.of_nat k.
Proof.
  revert a. induction k as [|k IH]; intros a; simpl; [lia|].
  rewrite IH. lia.
Qed.

(** ** The constructor *)

Lemma ctor_shape n t s :
  prime_sieve_ctor n t = Some s →
  2 ≤ n ∧ s = mk_sieve (<[0%nat := 0]> (replicate (Z.to_nat (n ≫ 1)) 1)) n t.
Proof.
  intros Hc. pose proof (ctor_some _ _ _ Hc) as Hn. split; [done|].
  revert Hc. unfold prime_sieve_ctor.
  rewrite vec_set_in_range by (rewrite length_replicate, shiftr_1; dlia).
  by intros [= <-].
Qed.

Lemma ctor_from_two n t : 2 ≤ n → ∃ s, prime_sieve_ctor n t = Some s.
Proof.
  intros Hn. unfold prime_sieve_ctor.
  rewrite vec_set_in_range by (rewrite length_replicate, shiftr_1; dlia).
  by eexists.
Qed.

(** X1.  The constructor is undefined exactly for the limits 0 and 1: the
    vector [Bits(n >> 1, 1)] is then empty and [Bits[0] = 0] writes outside
    it.  No run exists for such a limit. *)
Theorem ctor_undefined_below_two (n t : Z) :
  (prime_sieve_ctor n t = None ↔ n < 2) ∧
  (∀ sched, n < 2 → run n t sched = None).
Proof.
  assert (Hnone : n < 2 → prime_sieve_ctor n t = None).
  { intros Hn. destruct (prime_sieve_ctor n t) as [s|] eqn:Hc; [|done].
    apply ctor_some in Hc. lia. }
  split; [split; [|done]|].
  - intros Hc. destruct (decide (n < 2)); [done|].
    destruct (ctor_from_two n t) as [s Hs]; [lia | congruence].
  - intros sched Hn. unfold run. by rewrite Hnone.
Qed.

(** ** No worker at all *)

Lemma exec_empty_pool sched st : pool st = [] → exec sched st = Some st.
Proof.
  intros Hp. induction sched as [|tid sched IH]; simpl; [done|].
  unfold step. by rewrite Hp.
Qed.

Lemma no_worker_run n sched s :
  prime_sieve_ctor n 0 = Some s → run n 0 sched = Some s.
Proof.
  intros Hc. unfold run. rewrite Hc. simpl.
  assert (Hpool : pool (spawn s) = []).
  { apply ctor_shape in Hc as [_ ->]. done. }
  rewrite exec_empty_pool by done. simpl.
  unfold joined. by rewrite Hpool.
Qed.

Lemma countPrimes_ctor n t s :
  prime_sieve_ctor n t = Some s → countPrimes s = n / 2.
Proof.
  intros [Hn ->]%ctor_shape. unfold countPrimes. simpl.
  rewrite decide_True by done.
  destruct (Z.to_nat (n ≫ 1)) as [|k] eqn:Hk; [rewrite shiftr_1 in Hk; dlia|].
  simpl. rewrite drop_0, count_cells_ones. rewrite shiftr_1 in Hk. lia.
Qed.

(** On the vector as constructed the count is half the limit, which is the
    stored count of no entry of the table. *)
Lemma validateResults_ctor n t s :
  prime_sieve_ctor n t = Some s → validateResults s = false.
Proof.
  intros Hc. unfold validateResults. rewrite (countPrimes_ctor _ _ _ Hc).
  apply ctor_shape in Hc as [_ ->]. cbn [Size]. clear.
  unfold resultsDictionary, find.
  repeat (case_decide; [subst n; vm_compute; reflexivity|]). done.
Qed.

(** X2.  With [Threads = 0] the loop of [runSieve()] starts no runner and
    the join returns at once: the vector stays as constructed, every odd
    number from 3 on is reported prime, [countPrimes] is half the limit and
    [validateResults] fails, whatever the limit. *)
Theorem no_worker_no_sieving (n : Z) (sched : list nat) :
  2 ≤ n →
  ∃ s, prime_sieve_ctor n 0 = Some s ∧ run n 0 sched = Some s ∧
       countPrimes s = n / 2 ∧
       (∀ m, 3 ≤ m < n → m mod 2 = 1 → isPrime s m = Some true) ∧
       validateResults s = false.
Proof.
  intros Hn. destruct (ctor_from_two n 0 Hn) as [s Hc]. exists s.
  split_and!; [done | by apply no_worker_run | by eapply countPrimes_ctor | |
               by eapply validateResults_ctor].
  intros m Hm Hodd. apply ctor_shape in Hc as [_ ->].
  unfold isPrime, vec_get. simpl. rewrite land_1, decide_False by lia.
  rewrite decide_True by (rewrite shiftr_1; dlia).
  rewrite list_lookup_insert_ne by (rewrite shiftr_1; dlia).
  rewrite lookup_replicate_2 by (rewrite !shiftr_1; dlia). done.
Qed.

Lemma no_worker_no_sieving_witness :
  ∃ s, prime_sieve_ctor 100 0 = Some s ∧ run 100 0 [0; 1; 0]%nat = Some s ∧
       countPrimes s = 100 / 2 ∧
       (∀ m, 3 ≤ m < 100 → m mod 2 = 1 → isPrime s m = Some true) ∧
       validateResults s = false.
Proof. apply (no_worker_no_sieving 100 [0; 1; 0]%nat). lia. Defined.

(** ** While the runners are at work *)

Section MidRun.
Variables n t : Z.
Hypothesis limit_range : 2 ≤ n < 2 ^ 52.
Hypothesis workers_pos : 1 ≤ t.

Lemma reachable_inv s :
  reachable n t s → ∃ st, s = shared st ∧ inv n t st.
Proof.
  intros (s0 & sched & st & Hc & Hexec & ->).
  pose proof (spawn_inv n t limit_range workers_pos s0 Hc) as Hinv0.
  destruct (exec_inv n t limit_range workers_pos sched _ Hinv0)
    as (st' & Hexec' & Hinv & _).
  exists st. split; [done|]. congruence.
Qed.

(** A state of a run can always be completed, and completing it strikes
    cells only. *)
Lemma inv_completion st :
  inv n t st → no_reset (Bits (shared st)) (expected_bits n).
Proof.
  intros Hinv.
  destruct (exists_schedule n t limit_range workers_pos st Hinv)
    as (sched & st' & Hexec & Hj).
  destruct (exec_inv n t limit_range workers_pos sched st Hinv)
    as (st'' & Hexec' & Hinv' & Hnr).
  assert (st'' = st') as -> by congruence.
  by rewrite <- (joined_bits n t limit_range workers_pos st' Hinv' Hj).
Qed.

End MidRun.

(** X3.  At every moment of a run, joined or not, the cell of every prime
    below the limit still holds 1 and cell 0 holds 0: [isPrime] answers for
    every odd number below the limit, never denies a prime, and
    [countPrimes] is at least the number of primes below the limit. *)
Theorem primes_are_never_struck (n t : Z) (s : prime_sieve) :
  2 ≤ n < 2 ^ 52 → 1 ≤ t → reachable n t s →
  (∀ m, 0 ≤ m < n → m mod 2 = 1 →
     (Z.prime m → isPrime s m = Some true) ∧
     (isPrime s m = Some false → ¬ Z.prime m) ∧
     (isPrime s m = Some true ∨ isPrime s m = Some false)) ∧
  vec_get (Bits s) 0 = Some 0 ∧
  (3 ≤ n → prime_count n ≤ countPrimes s).
Proof.
  intros Hn Ht Hreach.
  destruct (reachable_inv n t Hn Ht s Hreach) as (st & -> & Hinv).
  pose proof (inv_bits _ _ _ Hinv) as Hbits.
  assert (Hcell : ∀ m, 0 ≤ m < n → m mod 2 = 1 →
            (Z.prime m → isPrime (shared st) m = Some true) ∧
            (isPrime (shared st) m = Some true ∨ isPrime (shared st) m = Some false)).
  { intros m Hm Hodd. unfold isPrime. rewrite land_1, decide_False by lia.
    destruct (read_in_range n (Bits (shared st)) m Hbits Hodd Hm) as (c & Hc & H01).
    rewrite Hc. simpl. split.
    - intros Hp. destruct H01 as [-> | ->]; [|done].
      destruct (read_zero_not_prime n _ m Hbits Hodd ltac:(lia) Hc Hp).
    - destruct H01 as [-> | ->]; [by right | by left]. }
  split_and!.
  - intros m Hm Hodd. destruct (Hcell m Hm Hodd) as [Hp Hb].
    split_and!; [done | | done].
    intros Hfalse Hprime. rewrite (Hp Hprime) in Hfalse. discriminate.
  - unfold vec_get. simpl. apply (bits_one _ _ Hbits).
  - intros H3. rewrite <- (countPrimes_prime_count n t H3).
    apply countPrimes_no_reset; simpl; [by rewrite (inv_size _ _ _ Hinv)|].
    by apply (inv_completion n t).
Qed.

Lemma primes_are_never_struck_witness :
  ∃ s0 st, prime_sieve_ctor 100 2 = Some s0 ∧
    exec (round_robin 2 12) (spawn s0) = Some st ∧
    (Z.prime 97 → isPrime (shared st) 97 = Some true) ∧
    isPrime (shared st) 49 = Some true ∧
    prime_count 100 ≤ countPrimes (shared st).
Proof.
  do 2 eexists. split; [reflexivity|]. split; [vm_compute; reflexivity|].
  match goal with |- context [isPrime (shared ?st)] =>
    assert (Hreach : reachable 100 2 (shared st))
      by (eexists _, (round_robin 2 12), st;
          split; [reflexivity|]; split; [vm_compute; reflexivity | reflexivity]);
    destruct (primes_are_never_struck 100 2 (shared st) ltac:(lia) ltac:(lia) Hreach)
      as (Hcells & _ & Hcount)
  end.
  split_and!;
    [apply (Hcells 97); [lia | reflexivity] | vm_compute; reflexivity | apply Hcount; lia].
Defined.

(** X4.  From any state and under any schedule, [countPrimes] never grows
    and a cell read as 0 reads as 0 ever after: a count taken while runners
    are still at work can only be too high. *)
Theorem countPrimes_never_increases (sched : list nat) (st st' : state) :
  exec sched st = Some st' →
  countPrimes (shared st') ≤ countPrimes (shared st) ∧
  ∀ i, vec_get (Bits (shared st)) i = Some 0 → vec_get (Bits (shared st')) i = Some 0.
Proof.
  intros Hexec. destruct (exec_shape _ _ _ Hexec) as (Hsz & _ & Hnr). split.
  - by apply countPrimes_no_reset.
  - intros i. unfold vec_get. case_decide; [|done]. by apply no_reset_zero.
Qed.

Lemma countPrimes_never_increases_witness :
  ∃ s0 st, prime_sieve_ctor 100 2 = Some s0 ∧
    exec (round_robin 2 12) (spawn s0) = Some st ∧
    countPrimes (shared st) ≤ countPrimes s0.
Proof.
  do 2 eexists. split; [reflexivity|]. split; [vm_compute; reflexivity|].
  eapply (countPrimes_never_increases (round_robin 2 12) (spawn _)).
  vm_compute; reflexivity.
Defined.

(** ** A runner is done after a bounded number of its own steps *)

(** The steps [sched] gives to runner [tid]. *)
Definition turns (tid : nat) (sched : list nat) : Z :=
  Z.of_nat (count_occ Nat.eq_dec sched tid).

(** A bound on the steps runner [tid] takes before it leaves its loop: at
    most [sqrt n + 2 - 6 tid] rounds, of at most [2 n + 5] steps each. *)
Definition step_bound (n : Z) (tid : nat) : Z :=
  Z.max 0 (Z.sqrt n + 2 - 6 * Z.of_nat tid) * (2 * n + 5) + 1.

Section WaitFree.
Variables n t : Z.
Hypothesis limit_range : 2 ≤ n < 2 ^ 52.
Hypothesis workers_pos : 1 ≤ t.

Lemma measure_start tid : measure n t (runner_start (Z.of_nat tid)) = step_bound n tid.
Proof. reflexivity. Qed.

Lemma measure_pos r : at_ r ≠ AtDone → 1 ≤ measure n t r.
Proof.
  intros Hnd. pose proof (after_round_nonneg n t limit_range (index r)).
  unfold measure, loop_left. destruct (at_ r); try lia; [|done].
  unfold rounds_left, round_cost. nia.
Qed.

Lemma step_other st tid tid' st' :
  step st tid' = Some st' → tid ≠ tid' → pool st' !! tid = pool st !! tid.
Proof.
  unfold step. intros Hstep Hne.
  destruct (pool st !! tid') as [r|]; [|by injection Hstep as <-].
  destruct (runner_step _ _ _ r) as [[bits' r']|]; [|done].
  injection Hstep as <-. simpl. by apply list_lookup_insert_ne.
Qed.

Lemma step_self st tid r st' :
  inv n t st → pool st !! tid = Some r → step st tid = Some st' →
  ∃ r', pool st' !! tid = Some r' ∧ measure n t r' ≤ Z.max 0 (measure n t r - 1).
Proof.
  intros Hinv Hr Hstep.
  destruct (decide (at_ r = AtDone)) as [Hd|Hnd].
  - exists r. revert Hstep. unfold step. rewrite Hr. simpl.
    unfold runner_step. rewrite Hd. simpl. intros [= <-]. simpl.
    split; [apply list_lookup_insert_eq; by eapply lookup_lt_Some|].
    unfold measure. rewrite Hd. lia.
  - pose proof Hstep as Hstep'. revert Hstep. unfold step. rewrite Hr. simpl.
    rewrite (inv_size _ _ _ Hinv), (inv_threads _ _ _ Hinv).
    destruct (runner_step n t _ r) as [[bits' r']|] eqn:Hrs; [|done]. simpl.
    intros [= <-]. exists r'. simpl.
    split; [apply list_lookup_insert_eq; by eapply lookup_lt_Some|].
    destruct (inv_runners _ _ _ Hinv tid r Hr) as [Hok _].
    pose proof (runner_step_measure n t limit_range workers_pos _ tid r _ _ Hok Hnd Hrs). lia.
Qed.

(** Each step of a runner lowers its measure; the steps of the other
    runners leave it alone. *)
Lemma exec_turns tid sched :
  ∀ st r, inv n t st → pool st !! tid = Some r →
    ∃ st' r', exec sched st = Some st' ∧ inv n t st' ∧
              pool st' !! tid = Some r' ∧
              measure n t r' ≤ Z.max 0 (measure n t r - turns tid sched).
Proof.
  induction sched as [|tid' sched IH]; intros st r Hinv Hr.
  - exists st, r. split_and!; [done..|]. unfold turns. simpl.
    pose proof (measure_nonneg n t limit_range r). lia.
  - destruct (step_inv n t limit_range workers_pos st tid' Hinv)
      as (st1 & Hstep & Hinv1 & _).
    simpl. rewrite Hstep. simpl. unfold turns. simpl.
    destruct (Nat.eq_dec tid' tid) as [->|Hne].
    + destruct (step_self st tid r st1 Hinv Hr Hstep) as (r1 & Hr1 & Hm1).
      destruct (IH st1 r1 Hinv1 Hr1) as (st' & r' & Hexec & Hinv' & Hr' & Hm').
      exists st', r'. split_and!; [done..|]. unfold turns in Hm'. lia.
    + rewrite <- (step_other st tid tid' st1 Hstep) in Hr by done.
      destruct (IH st1 r Hinv1 Hr) as (st' & r' & Hexec & Hinv' & Hr' & Hm').
      exists st', r'. by split_and!.
Qed.

Lemma spawn_lookup s0 tid :
  prime_sieve_ctor n t = Some s0 → Z.of_nat tid < t →
  pool (spawn s0) !! tid = Some (runner_start (Z.of_nat tid)).
Proof.
  rewrite (ctor_defined n t limit_range). intros [= <-] Htid.
  unfold spawn. simpl. by rewrite list_lookup_fmap, lookup_seqZ_lt by lia.
Qed.

Lemma done_after_turns s0 tid sched :
  prime_sieve_ctor n t = Some s0 → Z.of_nat tid < t →
  step_bound n tid ≤ turns tid sched →
  ∃ st r, exec sched (spawn s0) = Some st ∧ inv n t st ∧
          pool st !! tid = Some r ∧ at_ r = AtDone.
Proof.
  intros Hc Htid Hturns.
  pose proof (spawn_inv n t limit_range workers_pos s0 Hc) as Hinv0.
  destruct (exec_turns tid sched _ _ Hinv0 (spawn_lookup s0 tid Hc Htid))
    as (st & r & Hexec & Hinv & Hr & Hm).
  exists st, r. split_and!; [done..|].
  destruct (decide (at_ r = AtDone)) as [|Hnd]; [done|].
  pose proof (measure_pos r Hnd). rewrite measure_start in Hm. lia.
Qed.

Lemma fair_joins sched :
  (∀ tid, Z.of_nat tid < t → step_bound n tid ≤ turns tid sched) →
  run n t sched = Some (mk_sieve (expected_bits n) n t).
Proof.
  intros Hfair.
  pose proof (ctor_defined n t limit_range) as Hc.
  pose proof (spawn_inv n t limit_range workers_pos _ Hc) as Hinv0.
  destruct (exec_inv n t limit_range workers_pos sched _ Hinv0)
    as (st & Hexec & Hinv & _).
  assert (Hj : joined st = true).
  { unfold joined. apply forallb_forall. intros r Hin.
    apply list_elem_of_In, list_elem_of_lookup in Hin as [tid Hr].
    apply bool_decide_eq_true.
    assert (Htid : Z.of_nat tid < t).
    { rewrite <- (inv_pool _ _ _ Hinv). apply lookup_lt_Some in Hr. lia. }
    destruct (done_after_turns _ tid sched Hc Htid (Hfair tid Htid))
      as (st' & r' & Hexec' & _ & Hr' & Hd).
    congruence. }
  assert (Hrun : run n t sched = Some (shared st)).
  { unfold run. rewrite Hc. simpl. rewrite Hexec. simpl. by rewrite Hj. }
  rewrite Hrun. f_equal. by apply (run_result n t limit_range workers_pos sched).
Qed.

End WaitFree.

Lemma turns_app tid s1 s2 : turns tid (s1 ++ s2) = turns tid s1 + turns tid s2.
Proof. unfold turns. rewrite count_occ_app. lia. Qed.

Lemma turns_seq tid w : (tid < w)%nat → turns tid (seq 0 w) = 1.
Proof.
  intros Htid. unfold turns.
  assert (H : count_occ Nat.eq_dec (seq 0 w) tid = 1%nat); [|by rewrite H].
  apply NoDup_count_occ'; [apply seq_NoDup | apply in_seq; lia].
Qed.

Lemma turns_round_robin tid w k :
  (tid < w)%nat → turns tid (round_robin w k) = Z.of_nat k.
Proof.
  intros Htid. unfold round_robin. induction k as [|k IH]; [done|].
  simpl. rewrite turns_app, IH, turns_seq by done. lia.
Qed.

Lemma step_bound_le n tid : 0 ≤ n → step_bound n tid ≤ step_bound n 0.
Proof.
  intros Hn. unfold step_bound. pose proof (Z.sqrt_nonneg n).
  assert (Z.max 0 (Z.sqrt n + 2 - 6 * Z.of_nat tid)
          ≤ Z.max 0 (Z.sqrt n + 2 - 6 * Z.of_nat 0)) by lia.
  nia.
Qed.

(** X5.  A runner is done after a bounded number of its own steps, however
    the steps of the other runners fall in between: once a schedule has
    given runner [tid] at least [step_bound n tid] turns, that runner has
    left its loop.  No runner waits for another. *)
Theorem runner_done_after_its_turns (n t : Z) (s0 : prime_sieve)
    (tid : nat) (sched : list nat) :
  2 ≤ n < 2 ^ 52 → 1 ≤ t → prime_sieve_ctor n t = Some s0 → Z.of_nat tid < t →
  step_bound n tid ≤ turns tid sched →
  ∃ st r, exec sched (spawn s0) = Some st ∧
          pool st !! tid = Some r ∧ at_ r = AtDone.
Proof.
  intros Hn Ht Hc Htid Hturns.
  destruct (done_after_turns n t Hn Ht s0 tid sched Hc Htid Hturns)
    as (st & r & ? & _ & ? & ?).
  by exists st, r.
Qed.

Lemma runner_done_after_its_turns_witness :
  ∃ st r, exec (replicate 126 0%nat ++ [1%nat]) (spawn (mk_sieve [0; 1; 1; 1; 1] 10 2))
            = Some st ∧
          pool st !! 0%nat = Some r ∧ at_ r = AtDone.
Proof.
  apply (runner_done_after_its_turns 10 2 _ 0 (replicate 126 0%nat ++ [1%nat]));
    [lia | lia | reflexivity | lia | vm_compute; discriminate].
Defined.

(** X6.  A schedule that gives every runner its bound of turns ends in a
    joined run that leaves the vector of the primes; scheduling the runners
    in turn for [step_bound n 0] rounds is one such schedule. *)
Theorem fair_schedules_join (n t : Z) :
  2 ≤ n < 2 ^ 52 → 1 ≤ t →
  (∀ sched,
     (∀ tid, Z.of_nat tid < t → step_bound n tid ≤ turns tid sched) →
     run n t sched = Some (mk_sieve (expected_bits n) n t)) ∧
  (∀ k, step_bound n 0 ≤ Z.of_nat k →
     run n t (round_robin (Z.to_nat t) k) = Some (mk_sieve (expected_bits n) n t)).
Proof.
  intros Hn Ht. split.
  - intros sched Hfair. by apply fair_joins.
  - intros k Hk. apply fair_joins; [done..|].
    intros tid Htid. rewrite turns_round_robin by lia.
    pose proof (step_bound_le n tid ltac:(lia)). lia.
Qed.

Lemma fair_schedules_join_witness :
  run 10 2 (round_robin (Z.to_nat 2) 126) = Some (mk_sieve (expected_bits 10) 10 2).
Proof.
  destruct (fair_schedules_join 10 2 ltac:(lia) ltac:(lia)) as [_ H].
  apply H. vm_compute. discriminate.
Defined.

(** ** How the runners share out the wheel *)

(** X7.  At every moment of a run there are [Threads] runners, and the
    index of runner [tid] is congruent to [tid] modulo [Threads]: no two
    runners ever hold the same index.  Only runner 0, at index 0, is in
    the loop over the multiples of 3; a runner reading or striking for its
    first factor has [factor = 6 index - 1], for its second
    [factor = 6 index + 1], the first of the pair within the square root;
    while striking, [num] is an odd multiple [factor * c] with [c] not
    below [factor]; a runner that is done has a factor beyond the square
    root. *)
Theorem runners_share_out_the_wheel (n t : Z) (s0 : prime_sieve)
    (sched : list nat) (st : state) :
  2 ≤ n < 2 ^ 52 → 1 ≤ t →
  prime_sieve_ctor n t = Some s0 → exec sched (spawn s0) = Some st →
  Z.of_nat (length (pool st)) = t ∧
  ∀ tid r, pool st !! tid = Some r →
    0 ≤ index r ∧ index r mod t = Z.of_nat tid ∧
    (at_ r = AtFor3 → tid = 0%nat ∧ index r = 0) ∧
    (at_ r = AtIfA ∨ at_ r = AtForA →
       1 ≤ index r ∧ factor r = 6 * index r - 1 ∧ factor r ≤ Z.sqrt n) ∧
    (at_ r = AtIfB ∨ at_ r = AtForB →
       1 ≤ index r ∧ factor r = 6 * index r + 1 ∧ factor r - 2 ≤ Z.sqrt n) ∧
    (at_ r = AtForA ∨ at_ r = AtForB →
       ∃ c, num r = factor r * c ∧ factor r ≤ c ∧ c mod 2 = 1) ∧
    (at_ r = AtDone → Z.sqrt n < factor r) ∧
    ∀ tid' r', pool st !! tid' = Some r' → index r' = index r → tid' = tid.
Proof.
  intros Hn Ht Hc Hexec.
  pose proof (spawn_inv n t Hn Ht s0 Hc) as Hinv0.
  destruct (exec_inv n t Hn Ht sched _ Hinv0) as (st' & Hexec' & Hinv & _).
  assert (st' = st) as -> by congruence.
  split; [apply (inv_pool _ _ _ Hinv)|].
  intros tid r Hr.
  destruct (inv_runners _ _ _ Hinv tid r Hr) as [(Hidx & Hres & Hat) _].
  unfold q in Hat.
  split_and!; [done | done | | | | | |].
  - intros Hpl. rewrite Hpl in Hat. destruct Hat as (H0 & _).
    rewrite H0, Z.mod_0_l in Hres by lia. split; [lia | done].
  - intros [Hpl|Hpl]; rewrite Hpl in Hat; lia.
  - intros [Hpl|Hpl]; rewrite Hpl in Hat; lia.
  - intros [Hpl|Hpl]; rewrite Hpl in Hat;
      destruct Hat as (_ & _ & _ & (c & ? & ? & ? & _)); by exists c.
  - intros Hpl. rewrite Hpl in Hat. lia.
  - intros tid' r' Hr' Heq.
    destruct (inv_runners _ _ _ Hinv tid' r' Hr') as [(_ & Hres' & _) _].
    rewrite Heq, Hres in Hres'. lia.
Qed.

Lemma runners_share_out_the_wheel_witness :
  ∃ st, exec (round_robin 3 4) (spawn (mk_sieve (<[0%nat := 0]> (replicate 200 1)) 400 3))
          = Some st ∧
        ∀ tid r, pool st !! tid = Some r →
          0 ≤ index r ∧ index r mod 3 = Z.of_nat tid ∧
          ∀ tid' r', pool st !! tid' = Some r' → index r' = index r → tid' = tid.
Proof.
  eexists. split; [vm_compute; reflexivity|].
  intros tid r Hr.
  match type of Hr with pool ?st !! _ = _ =>
    destruct (runners_share_out_the_wheel 400 3 _ (round_robin 3 4) st
                ltac:(lia) ltac:(lia) ltac:(reflexivity) ltac:(vm_compute; reflexivity))
      as [_ H]
  end.
  destruct (H tid r Hr) as (? & ? & _ & _ & _ & _ & _ & ?). by split_and!.
Defined.

(** ** Validation after a run *)

Lemma find_key key m v : find key m = Some v → key ∈ (fst <$> m).
Proof.
  induction m as [|[k w] m IH]; simpl; [done|].
  case_decide as Hk; [subst; intros _; apply elem_of_cons; by left|].
  intros Hfind. apply elem_of_cons. right. by apply IH.
Qed.

Lemma find_no_key key m : find key m = None → key ∉ (fst <$> m).
Proof.
  induction m as [|[k w] m IH]; simpl; [intros _; apply not_elem_of_nil|].
  case_decide as Hk; [done|]. intros Hfind.
  apply not_elem_of_cons. split; [done | by apply IH].
Qed.

(** X8.  After a joined run with at least one worker, [validateResults]
    is true exactly when the limit is a key of the table: the sieve never
    fails the check on a limit the table knows. *)
Theorem validateResults_after_a_run (n t : Z) (sched : list nat) (s : prime_sieve) :
  2 ≤ n < 2 ^ 52 → 1 ≤ t → run n t sched = Some s →
  validateResults s = bool_decide (n ∈ (fst <$> resultsDictionary)).
Proof.
  intros Hn Ht Hrun. rewrite (run_result n t Hn Ht sched s Hrun).
  unfold validateResults. cbn [Size].
  destruct (find n resultsDictionary) as [c|] eqn:Hfind.
  - rewrite (bool_decide_eq_true_2 (n ∈ _)) by (by eapply find_key).
    apply bool_decide_eq_true.
    assert (10 ≤ n).
    { revert Hfind. unfold resultsDictionary, find.
      repeat (case_decide; [lia|]). done. }
    rewrite countPrimes_prime_count by lia. symmetry. by apply documented_count.
  - symmetry. apply bool_decide_eq_false. by apply find_no_key.
Qed.

Lemma validateResults_after_a_run_witness :
  ∃ s, run 100 2 (round_robin 2 200) = Some s ∧
       validateResults s = bool_decide (100 ∈ (fst <$> resultsDictionary)).
Proof.
  eexists. split; [vm_compute; reflexivity|].
  apply (validateResults_after_a_run 100 2 (round_robin 2 200));
    [lia | lia | vm_compute; reflexivity].
Defined.

(** ** [printResults]

    The console output is kept as data: the numbers shown when [showResults]
    is set, and the fields of the summary line ([Time] and [Average], which
    echo the floating-point duration, are left out). *)

Record report := mk_report {
  shown : list Z;          (* "2, " then "(2 * num + 1), " per set cell *)
  report_passes : Z;       (* Passes: *)
  report_threads : Z;      (* Threads: *)
  report_limit : Z;        (* Limit: *)
  report_count : Z;        (* Counts: count / ... *)
  report_countPrimes : Z;  (* Counts: ... / countPrimes() *)
  report_valid : bool      (* Valid : Pass or FAIL! *)
}.

(** [if (showResults) cout << "2, "; size_t count = (Size >= 2);] *)
Definition print_start (s : prime_sieve) (showResults : bool) : list Z * Z :=
  (if showResults then [2] else [], if decide (2 ≤ Size s) then 1 else 0).

(** One turn of the loop: [if (Bits[num]) { ...; count++; }]. *)
Definition print_cell (bits : list Z) (showResults : bool) (num : Z)
    (acc : list Z * Z) : option (list Z * Z) :=
  c ← vec_get bits num;
  Some (if decide (c = 0) then acc
        else (if showResults then acc.1 ++ [u64 (2 * num + 1)] else acc.1,
              acc.2 + 1)).

Fixpoint print_cells (bits : list Z) (showResults : bool) (nums : list Z)
    (acc : list Z * Z) : option (list Z * Z) :=
  match nums with
  | [] => Some acc
  | num :: nums' =>
      acc' ← print_cell bits showResults num acc;
      print_cells bits showResults nums' acc'
  end.

(** [for (uint64_t num = 1; num <= Bits.size(); ++num)]: [num] takes the
    values 1 to [Bits.size()], the last one included. *)
Definition printResults (s : prime_sieve) (showResults : bool)
    (passes threads : Z) : option report :=
  '(out, count) ← print_cells (Bits s) showResults
                    (seqZ 1 (Z.of_nat (length (Bits s))))
                    (print_start s showResults);
  Some (mk_report out passes threads (Size s) count
                  (countPrimes s) (validateResults s)).

(** The primes below [n], in increasing order. *)
Definition primes_below (n : Z) : list Z :=
  filter (λ m, trial_division m = true) (seqZ 0 n).

Lemma print_cells_app bits b l1 l2 acc :
  print_cells bits b (l1 ++ l2) acc
  = acc' ← print_cells bits b l1 acc; print_cells bits b l2 acc'.
Proof.
  revert acc. induction l1 as [|num l1 IH]; intros acc; simpl.
  - by destruct (print_cells bits b l2 acc).
  - destruct (print_cell bits b num acc) as [acc'|]; simpl; [apply IH | done].
Qed.

(** Over cells that exist the loop counts as [countPrimes] does. *)
Lemma print_cells_count bits b (k : nat) :
  ∀ i out c, 0 ≤ i → i + Z.of_nat k ≤ Z.of_nat (length bits) →
    ∃ out', print_cells bits b (seqZ i (Z.of_nat k)) (out, c)
            = Some (out',
                    fold_left (λ count c, if decide (c = 0) then count else count + 1)
                              (take k (drop (Z.to_nat i) bits)) c).
Proof.
  induction k as [|k IH]; intros i out c Hi Hlen.
  - exists out. by rewrite take_0.
  - rewrite seqZ_cons by lia. cbn [print_cells]. unfold print_cell at 1.
    destruct (lookup_lt_is_Some_2 bits (Z.to_nat i)) as [x Hx]; [lia|].
    unfold vec_get. rewrite decide_True by done. rewrite Hx. simpl.
    rewrite (drop_S _ _ _ Hx). cbn [take fold_left].
    replace (Z.pred (Z.of_nat (S k))) with (Z.of_nat k) by lia.
    replace (S (Z.to_nat i)) with (Z.to_nat (Z.succ i)) by lia.
    destruct (decide (x = 0)); apply IH; lia.
Qed.

Lemma vec_get_size bits : vec_get bits (Z.of_nat (length bits)) = None.
Proof.
  unfold vec_get. rewrite decide_True by lia. apply lookup_ge_None. lia.
Qed.

(** Up to the last cell the loop is defined and counts [countPrimes]. *)
Lemma print_cells_before_end s showResults :
  Bits s ≠ [] →
  ∃ out, print_cells (Bits s) showResults
           (seqZ 1 (Z.of_nat (length (Bits s)) - 1)) (print_start s showResults)
         = Some (out, countPrimes s).
Proof.
  intros Hne.
  assert (Hlen : 1 ≤ Z.of_nat (length (Bits s))) by (destruct (Bits s); simpl; [done | lia]).
  destruct (print_cells_count (Bits s) showResults (length (Bits s) - 1) 1
              (print_start s showResults).1 (print_start s showResults).2)
    as [out Hout]; [lia | lia |].
  replace (Z.of_nat (length (Bits s) - 1)) with (Z.of_nat (length (Bits s)) - 1)
    in Hout by lia.
  rewrite take_ge in Hout by (rewrite length_drop; lia).
  exists out. unfold print_start in *. cbn [fst snd] in Hout. rewrite Hout. reflexivity.
Qed.

(** The turn [num = Bits.size()] reads outside the vector. *)
Lemma printResults_undefined s showResults passes threads :
  Bits s ≠ [] → printResults s showResults passes threads = None.
Proof.
  intros Hne.
  assert (Hlen : 1 ≤ Z.of_nat (length (Bits s))) by (destruct (Bits s); simpl; [done | lia]).
  destruct (print_cells_before_end s showResults Hne) as [out Hpre].
  unfold printResults.
  replace (Z.of_nat (length (Bits s))) with ((Z.of_nat (length (Bits s)) - 1) + 1) at 1 by lia.
  rewrite seqZ_app by lia. rewrite print_cells_app, Hpre. simpl.
  unfold print_cell.
  replace (Z.of_nat 0 + (1 + (Z.of_nat (length (Bits s)) - 1)))
    with (Z.of_nat (length (Bits s))) by lia.
  by rewrite vec_get_size.
Qed.

(** X9.  The loop of [printResults] runs [num] up to [Bits.size()]
    included, so on every sieve with a cell (every constructed sieve) its
    last turn reads [Bits[Bits.size()]], outside the vector: the call is
    undefined.  Up to that turn the reads are inside the vector and the
    local [count] has reached the value of [countPrimes]. *)
Theorem printResults_reads_past_the_end (s : prime_sieve) (showResults : bool)
    (passes threads : Z) :
  Bits s ≠ [] →
  printResults s showResults passes threads = None ∧
  vec_get (Bits s) (Z.of_nat (length (Bits s))) = None ∧
  ∃ out, print_cells (Bits s) showResults
           (seqZ 1 (Z.of_nat (length (Bits s)) - 1)) (print_start s showResults)
         = Some (out, countPrimes s).
Proof.
  intros Hne. split_and!;
    [by apply printResults_undefined | apply vec_get_size
    | by apply print_cells_before_end].
Qed.

Lemma printResults_reads_past_the_end_witness :
  printResults (mk_sieve [0; 1; 1; 1; 0] 10 1) true 1 1 = None ∧
  vec_get [0; 1; 1; 1; 0] 5 = None ∧
  ∃ out, print_cells [0; 1; 1; 1; 0] true (seqZ 1 (5 - 1))
           (print_start (mk_sieve [0; 1; 1; 1; 0] 10 1) true)
         = Some (out, countPrimes (mk_sieve [0; 1; 1; 1; 0] 10 1)).
Proof.
  apply (printResults_reads_past_the_end (mk_sieve [0; 1; 1; 1; 0] 10 1) true 1 1).
  discriminate.
Defined.

(** *** What the loop shows before its last turn *)

(** The loop over cells that hold the primality of their numbers. *)
Definition show_primes (b : bool) (nums : list Z) (acc : list Z * Z) : list Z * Z :=
  fold_left (λ acc num,
               if trial_division (2 * num + 1)
               then (if b then acc.1 ++ [2 * num + 1] else acc.1, acc.2 + 1)
               else acc)
            nums acc.

Lemma print_cells_expected n b nums :
  n < 2 ^ 63 → Forall (λ num, 0 ≤ num ∧ 2 * num + 1 < n) nums →
  ∀ acc, print_cells (expected_bits n) b nums acc = Some (show_primes b nums acc).
Proof.
  intros Hn Hnums. induction Hnums as [|num nums [Hnum Hlt] _ IH]; intros acc; [done|].
  cbn [print_cells]. unfold print_cell.
  rewrite expected_bits_lookup by done. simpl.
  rewrite u64_small by lia. unfold show_primes. cbn [fold_left].
  by destruct (trial_division (2 * num + 1)); simpl; rewrite IH.
Qed.

Lemma primes_below_succ n :
  0 ≤ n → primes_below (n + 1) = primes_below n ++ (if trial_division n then [n] else []).
Proof.
  intros Hn. unfold primes_below.
  rewrite seqZ_app, list.filter_app by lia.
  rewrite (seqZ_cons (0 + n) 1), (seqZ_nil _ (Z.pred 1)) by lia.
  rewrite list.filter_cons, list.filter_nil, Z.add_0_l.
  destruct (decide _) as [Ht|Hf]; [by rewrite Ht|].
  by destruct (trial_division n).
Qed.

Lemma show_primes_below n :
  3 ≤ n →
  show_primes true (seqZ 1 (n / 2 - 1)) ([2], 1)
  = (primes_below n, Z.of_nat (length (primes_below n))).
Proof.
  intros Hn. replace n with (3 + Z.of_nat (Z.to_nat (n - 3))) by lia.
  generalize (Z.to_nat (n - 3)) as j. clear. intros j.
  induction j as [|j IH]; [done|].
  replace (3 + Z.of_nat (S j)) with ((3 + Z.of_nat j) + 1) by lia.
  rewrite primes_below_succ by lia.
  assert (Hm : 3 ≤ 3 + Z.of_nat j) by lia. revert IH Hm.
  generalize (3 + Z.of_nat j) as m. clear. intros m IH Hm.
  destruct (decide (m mod 2 = 0)) as [Heven|Hodd].
  - rewrite even_not_prime by (done || lia).
    replace ((m + 1) / 2) with (m / 2) by dlia. by rewrite app_nil_r.
  - replace ((m + 1) / 2 - 1) with ((m / 2 - 1) + 1) by dlia.
    rewrite seqZ_app by dlia. unfold show_primes in *.
    rewrite fold_left_app, IH.
    rewrite seqZ_cons, seqZ_nil by lia. cbn [fold_left].
    replace (2 * (1 + (m / 2 - 1)) + 1) with m by dlia.
    destruct (trial_division m); simpl; [|by rewrite app_nil_r].
    rewrite List.length_app. simpl. f_equal. lia.
Qed.

Lemma primes_below_spec n m : m ∈ primes_below n ↔ 0 ≤ m < n ∧ Z.prime m.
Proof.
  unfold primes_below. rewrite list_elem_of_filter, elem_of_seqZ.
  rewrite trial_division_prime. intuition lia.
Qed.

(** X10.  After a joined run at a limit from 3 on, the turns of the loop
    of [printResults] that stay inside the vector show, with
    [showResults], exactly the primes below the limit in increasing order,
    2 first, and count them. *)
Theorem printResults_shows_the_primes (n t : Z) (sched : list nat) (s : prime_sieve) :
  3 ≤ n < 2 ^ 52 → 1 ≤ t → run n t sched = Some s →
  print_cells (Bits s) true (seqZ 1 (Z.of_nat (length (Bits s)) - 1)) (print_start s true)
    = Some (primes_below n, prime_count n) ∧
  ∀ m, m ∈ primes_below n ↔ 0 ≤ m < n ∧ Z.prime m.
Proof.
  intros Hn Ht Hrun. split; [|apply primes_below_spec].
  rewrite (run_result n t ltac:(lia) Ht sched s Hrun). cbn [Bits].
  rewrite expected_bits_length, shiftr_1.
  replace (Z.max 0 (n / 2)) with (n / 2) by dlia.
  rewrite print_cells_expected; [| lia |].
  - unfold print_start. cbn [Size]. rewrite decide_True by lia.
    by rewrite show_primes_below by lia.
  - apply list.Forall_forall. intros num Hnum%elem_of_seqZ. dlia.
Qed.

Lemma printResults_shows_the_primes_witness :
  ∃ s, run 30 2 (round_robin 2 60) = Some s ∧
       print_cells (Bits s) true (seqZ 1 (Z.of_nat (length (Bits s)) - 1)) (print_start s true)
         = Some (primes_below 30, prime_count 30) ∧
       primes_below 30 = [2; 3; 5; 7; 11; 13; 17; 19; 23; 29].
Proof.
  eexists. split; [vm_compute; reflexivity|].
  split; [|vm_compute; reflexivity].
  apply (printResults_shows_the_primes 30 2 (round_robin 2 60));
    [lia | lia | vm_compute; reflexivity].
Defined.

(** ** [main]

    The command line is the list [args]; [atoi], [atoll] and
    [thread::hardware_concurrency()] belong to the C++ library and are taken
    as given.  The clock of the timing loop decides how many passes follow
    the first one; every pass, and the final check, runs under a schedule of
    its own.  Of the console output only [printResults] matters to what
    [main] does next; the value is the exit status, [None] when the
    behaviour is undefined or a schedule ends before its runners are
    done. *)

Definition DEFAULT_UPPER_LIMIT : Z := 10000000.

Record options := mk_options {
  ullLimitRequested : Z;     (* uint64_t *)
  cThreadsRequested : Z;     (* int *)
  cSecondsRequested : Z;     (* int *)
  bPrintPrimes : bool;
  bOneshot : bool;
  bQuiet : bool
}.

Definition no_options : options := mk_options 0 0 0 false false false.

(** How the loop over the arguments ends. *)
Inductive parsed :=
  | Options (o : options)          (* [i] reached [args.end()] *)
  | Syntax                         (* [-h]: the syntax line, [return 0] *)
  | UnknownArgument (a : string).  (* [return 0] *)

(** [*i == short || *i == long] *)
Definition named (a short long : string) : bool :=
  bool_decide (a = short ∨ a = long).

(** [(int) result] *)
Definition to_int (z : Z) : Z := (z + 2 ^ 31) mod 2 ^ 32 - 2 ^ 31.

(** The status [main] is meant to return for a limit: the stored count of
    the table, 0 for a limit the table does not have. *)
Definition documented_status (limit : Z) : Z :=
  default 0 (find limit resultsDictionary).

Section Main.
Variables atoi atoll : string → Z.
Variable hardware_concurrency : Z.

(** [for (auto i = args.begin(); i != args.end(); ++i)].  An option that
    takes a value steps [i] to it; when there is none, [i] is [args.end()]
    and the [++i] of the loop steps past the end, which is undefined.
    [-1] steps [i] as well, over an argument it never looks at. *)
Fixpoint parse_args (args : list string) (o : options) : option parsed :=
  match args with
  | [] => Some (Options o)
  | a :: rest =>
      if named a "-h" "--help" then Some Syntax
      else if named a "-t" "--threads" then
        match rest with
        | [] => None
        | v :: rest' =>
            parse_args rest'
              (mk_options (ullLimitRequested o) (Z.max 1 (atoi v)) (cSecondsRequested o)
                          (bPrintPrimes o) (bOneshot o) (bQuiet o))
        end
      else if named a "-s" "--seconds" then
        match rest with
        | [] => None
        | v :: rest' =>
            parse_args rest'
              (mk_options (ullLimitRequested o) (cThreadsRequested o) (Z.max 1 (atoi v))
                          (bPrintPrimes o) (bOneshot o) (bQuiet o))
        end
      else if named a "-l" "--limit" then
        match rest with
        | [] => None
        | v :: rest' =>
            parse_args rest'
              (mk_options (Z.max 1 (atoll v)) (cThreadsRequested o) (cSecondsRequested o)
                          (bPrintPrimes o) (bOneshot o) (bQuiet o))
        end
      else if named a "-1" "--oneshot" then
        match rest with
        | [] => None
        | _ :: rest' =>
            parse_args rest'
              (mk_options (ullLimitRequested o) 1 (cSecondsRequested o)
                          (bPrintPrimes o) true (bQuiet o))
        end
      else if named a "-p" "--print" then
        parse_args rest
          (mk_options (ullLimitRequested o) (cThreadsRequested o) (cSecondsRequested o)
                      true (bOneshot o) (bQuiet o))
      else if named a "-q" "--quiet" then
        parse_args rest
          (mk_options (ullLimitRequested o) (cThreadsRequested o) (cSecondsRequested o)
                      (bPrintPrimes o) (bOneshot o) true)
      else Some (UnknownArgument a)
  end.

(** [bOneshot && (cSecondsRequested > 0 || cThreadsRequested > 1)] *)
Definition oneshot_conflict (o : options) : bool :=
  bOneshot o && (bool_decide (0 < cSecondsRequested o)
                 || bool_decide (1 < cThreadsRequested o)).

Definition cSeconds (o : options) : Z :=
  if decide (cSecondsRequested o = 0) then 5 else cSecondsRequested o.

Definition cThreads (o : options) : Z :=
  if decide (cThreadsRequested o = 0) then hardware_concurrency
  else cThreadsRequested o.

Definition llUpperLimit (o : options) : Z :=
  if decide (ullLimitRequested o = 0) then DEFAULT_UPPER_LIMIT
  else ullLimitRequested o.

(** [bOneshot ? 1 : cThreads], the worker count of every sieve. *)
Definition sieve_threads (o : options) : Z :=
  if bOneshot o then 1 else cThreads o.

(** The passes of the timing loop after the first; the value is their
    number. *)
Fixpoint timed_passes (limit workers : Z) (scheds : list (list nat)) : option Z :=
  match scheds with
  | [] => Some 0
  | sched :: more =>
      _ ← run limit workers sched;
      k ← timed_passes limit workers more;
      Some (k + 1)
  end.

Definition main (args : list string) (first : list nat) (more : list (list nat))
    (check : list nat) : option Z :=
  p ← parse_args args no_options;
  match p with
  | Syntax => Some 0
  | UnknownArgument _ => Some 0
  | Options o =>
      if oneshot_conflict o then Some 0
      else
        _ ← run (llUpperLimit o) (sieve_threads o) first;
        cPasses ← (if bOneshot o then Some 1
                   else k ← timed_passes (llUpperLimit o) (sieve_threads o) more;
                        Some (k + 1));
        checkSieve ← run (llUpperLimit o) (sieve_threads o) check;
        let result := if validateResults checkSieve then countPrimes checkSieve else 0 in
        _ ← (if bQuiet o then Some ()
             else _ ← printResults checkSieve (bPrintPrimes o) cPasses (cThreads o);
                  Some ());
        Some (to_int result)
  end.


(** *** The argument loop *)

Definition takes_next : list string :=
  ["-t"; "--threads"; "-s"; "--seconds"; "-l"; "--limit"; "-1"; "--oneshot"]%string.

Definition flags : list string := ["-p"; "--print"; "-q"; "--quiet"]%string.

Definition help : list string := ["-h"; "--help"]%string.

Lemma named_true a short long : named a short long = true ↔ a = short ∨ a = long.
Proof. unfold named. apply bool_decide_eq_true. Qed.

Lemma named_false a short long : named a short long = false ↔ a ≠ short ∧ a ≠ long.
Proof. unfold named. rewrite bool_decide_eq_false. tauto. Qed.

(** Arguments parsed to the end leave the loop where the next ones start. *)
Lemma parse_args_app (k : nat) :
  ∀ args o o' rest, (length args ≤ k)%nat →
    parse_args args o = Some (Options o') →
    parse_args (args ++ rest) o = parse_args rest o'.
Proof.
  induction k as [|k IH]; intros args o o' rest Hlen Hparse.
  { destruct args; simpl in Hlen; [|lia]. by injection Hparse as ->. }
  destruct args as [|a args]; [by injection Hparse as ->|].
  simpl in Hlen. cbn [parse_args app] in *.
  repeat (destruct (named a _ _); [first
    [ discriminate Hparse
    | destruct args as [|v args]; [discriminate Hparse|];
      simpl in Hlen; cbn [app]; apply IH; [lia | exact Hparse]
    | apply IH; [lia | exact Hparse] ]|]).
  discriminate Hparse.
Qed.

Lemma parse_takes_next a o :
  a ∈ takes_next → parse_args [a] o = None.
Proof.
  unfold takes_next. rewrite !elem_of_cons, elem_of_nil.
  intros H. repeat (destruct H as [->|H]; [reflexivity|]). done.
Qed.

Lemma parse_stops a rest o :
  a ∈ help ∨ a ∉ takes_next ++ flags →
  ∃ p, parse_args (a :: rest) o = Some p ∧ ∀ o', p ≠ Options o'.
Proof.
  intros [Hhelp|Hnot].
  - exists Syntax. split; [|done]. cbn [parse_args].
    replace (named a "-h" "--help") with true; [done|].
    symmetry. apply named_true. revert Hhelp. unfold help.
    rewrite !elem_of_cons, elem_of_nil. tauto.
  - cbn [parse_args]. destruct (named a "-h" "--help"); [by exists Syntax|].
    assert (Hf : ∀ short long, short ∈ takes_next ++ flags → long ∈ takes_next ++ flags →
              named a short long = false).
    { intros short long Hs Hl. apply named_false. split; congruence. }
    rewrite !Hf by (unfold takes_next, flags; simpl; rewrite !elem_of_cons; tauto).
    by exists (UnknownArgument a).
Qed.

(** What the loop keeps of the numbers it reads. *)
Definition clamped (o : options) : Prop :=
  (ullLimitRequested o = 0 ∨ 1 ≤ ullLimitRequested o) ∧
  (cThreadsRequested o = 0 ∨ 1 ≤ cThreadsRequested o) ∧
  (cSecondsRequested o = 0 ∨ 1 ≤ cSecondsRequested o) ∧
  (bOneshot o = true → 1 ≤ cThreadsRequested o).

Lemma parse_args_clamped (k : nat) :
  ∀ args o o', (length args ≤ k)%nat → clamped o →
    parse_args args o = Some (Options o') → clamped o'.
Proof.
  induction k as [|k IH]; intros args o o' Hlen Hok Hparse.
  { destruct args; simpl in Hlen; [|lia]. by injection Hparse as <-. }
  destruct args as [|a args]; [by injection Hparse as <-|].
  simpl in Hlen. cbn [parse_args] in Hparse.
  destruct Hok as (Hl & Ht & Hs & Ho).
  repeat (destruct (named a _ _); [first
    [ discriminate Hparse
    | destruct args as [|v args]; [discriminate Hparse|];
      simpl in Hlen; eapply (IH args); [lia | | exact Hparse];
      unfold clamped; cbn; split_and!; auto; lia
    | eapply (IH args); [lia | | exact Hparse];
      unfold clamped; cbn; split_and!; auto ]|]).
  discriminate Hparse.
Qed.

(** *** What [main] does with the parsed options *)

Lemma run_nonempty limit workers sched s :
  run limit workers sched = Some s → Bits s ≠ [].
Proof.
  intros Hrun%run_reachable%reachable_shape. destruct Hrun as (Hl & _ & _ & Hlen).
  intros Hnil. rewrite Hnil in Hlen. simpl in Hlen. dlia.
Qed.

Lemma run_status n t sched s :
  2 ≤ n < 2 ^ 52 → 1 ≤ t → run n t sched = Some s →
  (if validateResults s then countPrimes s else 0) = documented_status n.
Proof.
  intros Hn Ht Hrun. rewrite (run_result n t Hn Ht sched s Hrun).
  unfold validateResults, documented_status. cbn [Size].
  destruct (find n resultsDictionary) as [c|] eqn:Hfind; [|done].
  assert (10 ≤ n).
  { revert Hfind. unfold resultsDictionary, find.
    repeat (case_decide; [lia|]). done. }
  rewrite countPrimes_prime_count by lia.
  rewrite (documented_count n c Hfind). by rewrite bool_decide_eq_true_2.
Qed.

Lemma to_int_documented n : to_int (documented_status n) = documented_status n.
Proof.
  unfold documented_status, resultsDictionary, find.
  repeat (case_decide; [reflexivity|]). reflexivity.
Qed.

Lemma main_parsed args o first more check :
  parse_args args no_options = Some (Options o) →
  main args first more check =
    if oneshot_conflict o then Some 0
    else
      _ ← run (llUpperLimit o) (sieve_threads o) first;
      cPasses ← (if bOneshot o then Some 1
                 else k ← timed_passes (llUpperLimit o) (sieve_threads o) more;
                      Some (k + 1));
      checkSieve ← run (llUpperLimit o) (sieve_threads o) check;
      let result := if validateResults checkSieve then countPrimes checkSieve else 0 in
      _ ← (if bQuiet o then Some ()
           else _ ← printResults checkSieve (bPrintPrimes o) cPasses (cThreads o);
                Some ());
      Some (to_int result).
Proof. intros Hparse. unfold main. by rewrite Hparse. Qed.

Lemma parsed_clamped args o :
  parse_args args no_options = Some (Options o) → clamped o.
Proof.
  intros Hparse.
  apply (parse_args_clamped (length args) args no_options o); [done | | done].
  unfold clamped, no_options. cbn. split_and!; auto. discriminate.
Qed.

(** X11.  An option that takes a value ([-t], [-s], [-l] and their long
    forms) in the last place of the command line, and likewise [-1] or
    [--oneshot] in the last place, leaves the iterator at [args.end()] when
    the loop increments it: [main] is undefined. *)
Theorem main_option_in_last_place args o a first more check :
  parse_args args no_options = Some (Options o) → a ∈ takes_next →
  main (args ++ [a]) first more check = None.
Proof.
  intros Hparse Ha. unfold main.
  rewrite (parse_args_app (length args) args no_options o) by done.
  by rewrite parse_takes_next.
Qed.

(** X12.  At [-h], [--help] or the first argument that is no option,
    [main] returns 0 at once: nothing after it is read, no sieve is
    built. *)
Theorem main_stops_at_unknown_argument args o a rest first more check :
  parse_args args no_options = Some (Options o) →
  a ∈ help ∨ a ∉ takes_next ++ flags →
  main (args ++ a :: rest) first more check = Some 0.
Proof.
  intros Hparse Ha. unfold main.
  rewrite (parse_args_app (length args) args no_options o) by done.
  destruct (parse_stops a rest o Ha) as (p & -> & Hp). simpl.
  destruct p as [o'| |]; [by destruct (Hp o') | done | done].
Qed.

(** X13.  A limit that [atoll] reads as 1 or less is raised to 1, and
    [main] then constructs [prime_sieve(1, ...)], whose vector is empty:
    unless the oneshot check returns first, [main] is undefined. *)
Theorem main_limit_below_two args o a v first more check :
  parse_args args no_options = Some (Options o) → oneshot_conflict o = false →
  a ∈ ["-l"; "--limit"]%string → atoll v ≤ 1 →
  main (args ++ [a; v]) first more check = None ∧
  ∀ t, prime_sieve_ctor (Z.max 1 (atoll v)) t = None.
Proof.
  intros Hparse Hconf Ha Hv. split; [|].
  2: { intros t. destruct (prime_sieve_ctor _ t) as [s|] eqn:Hc; [|done].
       apply ctor_some in Hc. lia. }
  set (o' := mk_options (Z.max 1 (atoll v)) (cThreadsRequested o) (cSecondsRequested o)
                        (bPrintPrimes o) (bOneshot o) (bQuiet o)).
  assert (Hparse' : parse_args (args ++ [a; v]) no_options = Some (Options o')).
  { rewrite (parse_args_app (length args) args no_options o) by done.
    revert Ha. rewrite !elem_of_cons, elem_of_nil.
    intros [->|[->|[]]]; reflexivity. }
  rewrite (main_parsed _ o') by done.
  replace (oneshot_conflict o') with false by done.
  assert (Hlimit : llUpperLimit o' = 1).
  { unfold llUpperLimit, o'. cbn. rewrite decide_False by lia. lia. }
  rewrite Hlimit.
  destruct (run 1 (sieve_threads o') first) as [s|] eqn:Hrun; [|done].
  apply run_some_limit in Hrun. lia.
Qed.

(** X14.  In quiet mode, with a limit from 2 on and at least one worker,
    the exit status of [main] is the stored count when the limit is a key
    of the table (664579 for the default limit) and 0 otherwise, whatever
    the schedules of the passes; and under fair schedules [main] does
    return. *)
Theorem main_exit_status args o :
  parse_args args no_options = Some (Options o) → oneshot_conflict o = false →
  bQuiet o = true → 2 ≤ llUpperLimit o < 2 ^ 52 → 1 ≤ sieve_threads o →
  (∀ first more check code,
     main args first more check = Some code →
     code = documented_status (llUpperLimit o)) ∧
  (let fair := round_robin (Z.to_nat (sieve_threads o))
                           (Z.to_nat (step_bound (llUpperLimit o) 0)) in
   main args fair [] fair = Some (documented_status (llUpperLimit o))) ∧
  documented_status DEFAULT_UPPER_LIMIT = 664579.
Proof.
  intros Hparse Hconf Hq Hlimit Ht. split_and!; [| |reflexivity].
  - intros first more check code. rewrite (main_parsed _ o) by done.
    rewrite Hconf, Hq.
    destruct (run _ _ first) as [s1|]; [|done]. cbn [mbind option_bind].
    destruct (if bOneshot o then _ else _) as [cPasses|]; [|done]. cbn [mbind option_bind].
    destruct (run _ _ check) as [s|] eqn:Hrun; [|done]. cbn [mbind option_bind].
    rewrite (run_status _ _ _ _ Hlimit Ht Hrun), to_int_documented. congruence.
  - intros fair. rewrite (main_parsed _ o) by done. rewrite Hconf, Hq.
    assert (Hrun : run (llUpperLimit o) (sieve_threads o) fair
                   = Some (mk_sieve (expected_bits (llUpperLimit o)) (llUpperLimit o)
                                    (sieve_threads o))).
    { apply fair_joins; [done..|]. intros tid Htid. unfold fair.
      rewrite turns_round_robin by lia.
      pose proof (step_bound_le (llUpperLimit o) tid ltac:(lia)).
      assert (0 ≤ step_bound (llUpperLimit o) 0).
      { unfold step_bound. pose proof (Z.sqrt_nonneg (llUpperLimit o)). nia. }
      lia. }
    rewrite Hrun. cbn [mbind option_bind].
    assert (Hp : (if bOneshot o then Some 1
                  else timed_passes (llUpperLimit o) (sieve_threads o) [] ≫= λ k, Some (k + 1))
                 = Some 1) by (by destruct (bOneshot o)).
    rewrite Hp. cbn [mbind option_bind].
    by rewrite (run_status _ _ _ _ Hlimit Ht Hrun), to_int_documented.
Qed.

(** X15.  Without [-q], [main] ends by calling [printResults] on the
    checked sieve, and so performs the read of [Bits[Bits.size()]]: every
    invocation that gets past the options and is not quiet is undefined. *)
Theorem main_without_quiet_reads_past_the_end args o first more check :
  parse_args args no_options = Some (Options o) → oneshot_conflict o = false →
  bQuiet o = false →
  main args first more check = None ∧
  ∀ checkSieve cPasses,
    run (llUpperLimit o) (sieve_threads o) check = Some checkSieve →
    printResults checkSieve (bPrintPrimes o) cPasses (cThreads o) = None.
Proof.
  intros Hparse Hconf Hq. split.
  2: { intros s cPasses Hrun. apply printResults_undefined. by eapply run_nonempty. }
  rewrite (main_parsed _ o) by done. rewrite Hconf, Hq.
  destruct (run _ _ first) as [s1|]; [|done]. simpl.
  destruct (if bOneshot o then _ else _) as [cPasses|]; [|done]. simpl.
  destruct (run _ _ check) as [s|] eqn:Hrun; [|done]. simpl.
  by rewrite printResults_undefined by (by eapply run_nonempty).
Qed.

(** X16.  Whatever [atoi] and [atoll] read, the numbers [main] keeps are 0
    (not given) or at least 1: the limit it sieves to and the seconds it
    runs for are at least 1, and so is the worker count as soon as [-t] is
    given or [hardware_concurrency()] is positive.  A bad number is
    silently raised to 1, never reported. *)
Theorem main_clamps_requests args o :
  parse_args args no_options = Some (Options o) →
  clamped o ∧ 1 ≤ llUpperLimit o ∧ 1 ≤ cSeconds o ∧
  (1 ≤ hardware_concurrency ∨ cThreadsRequested o ≠ 0 → 1 ≤ sieve_threads o).
Proof.
  intros Hparse. pose proof (parsed_clamped args o Hparse) as Hok.
  split; [done|]. destruct Hok as (Hl & Ht & Hs & Ho).
  unfold llUpperLimit, cSeconds, sieve_threads, cThreads, DEFAULT_UPPER_LIMIT.
  split_and!.
  - case_decide; lia.
  - case_decide; lia.
  - intros H. destruct (bOneshot o); [lia|]. case_decide; lia.
Qed.

(** X17.  With [-1] every sieve gets one worker, whatever [-t] said before
    it and whatever [hardware_concurrency()] is.  If seconds were asked
    for, or more than one thread after the [-1], [main] returns 0 without
    sieving; otherwise the timing loop makes its one pass only. *)
Theorem main_oneshot args o first more check :
  parse_args args no_options = Some (Options o) → bOneshot o = true →
  sieve_threads o = 1 ∧
  (oneshot_conflict o = true → main args first more check = Some 0) ∧
  (oneshot_conflict o = false →
     cThreadsRequested o = 1 ∧ cSecondsRequested o = 0 ∧
     ∀ more', main args first more' check = main args first more check).
Proof.
  intros Hparse Hone.
  destruct (parsed_clamped args o Hparse) as (_ & Ht & Hs & Ho).
  specialize (Ho Hone).
  split_and!.
  - unfold sieve_threads. by rewrite Hone.
  - intros Hconf. rewrite (main_parsed _ o) by done. by rewrite Hconf.
  - intros Hconf. unfold oneshot_conflict in Hconf. rewrite Hone in Hconf.
    simpl in Hconf. apply orb_false_iff in Hconf as [H1 H2].
    apply bool_decide_eq_false in H1, H2.
    split_and!; [lia | lia |].
    intros more'. rewrite !(main_parsed _ o) by done.
    unfold oneshot_conflict. by rewrite Hone.
Qed.

(** X18.  The argument that follows [-1] is stepped over unread: [main]
    does the same whatever stands there, be it [-h] or no option at all. *)
Theorem main_oneshot_skips_next_argument args o x y rest first more check :
  parse_args args no_options = Some (Options o) →
  main (args ++ "-1"%string :: x :: rest) first more check
  = main (args ++ "-1"%string :: y :: rest) first more check.
Proof.
  intros Hparse. unfold main.
  by rewrite !(parse_args_app (length args) args no_options o) by done.
Qed.

Lemma timed_passes_no_worker limit s more :
  prime_sieve_ctor limit 0 = Some s → ∃ k, timed_passes limit 0 more = Some k.
Proof.
  intros Hc. induction more as [|sched more [k IH]]; simpl; [by eexists|].
  rewrite (no_worker_run _ sched s Hc), IH. simpl. by eexists.
Qed.

(** X19.  When [hardware_concurrency()] is 0 and no [-t] and no [-1] is
    given, the sieves get no worker: in quiet mode, at any limit from 2 on,
    [main] sieves nothing and returns 0, also at the limits of the table. *)
Theorem main_without_hardware_threads args o first more check :
  hardware_concurrency = 0 →
  parse_args args no_options = Some (Options o) →
  bOneshot o = false → cThreadsRequested o = 0 → bQuiet o = true →
  2 ≤ llUpperLimit o →
  sieve_threads o = 0 ∧ main args first more check = Some 0.
Proof.
  intros Hhw Hparse Hone Ht Hq Hlimit.
  assert (Hw : sieve_threads o = 0).
  { unfold sieve_threads, cThreads. rewrite Hone. by rewrite decide_True. }
  split; [done|].
  rewrite (main_parsed _ o) by done.
  unfold oneshot_conflict. rewrite Hone, Hq, Hw. cbn [andb].
  destruct (ctor_from_two (llUpperLimit o) 0 Hlimit) as [s Hc].
  rewrite !(no_worker_run _ _ s Hc). cbn [mbind option_bind].
  destruct (timed_passes_no_worker _ s more Hc) as [k ->]. cbn [mbind option_bind].
  by rewrite (validateResults_ctor _ _ _ Hc).
Qed.

End Main.

(** *** Examples, with decimal numerals for [atoi] and [atoll] *)

Fixpoint decimal (s : string) (acc : Z) : Z :=
  match s with
  | EmptyString => acc
  | String c s' =>
      let d := Z.of_N (Ascii.N_of_ascii c) - 48 in
      if decide (0 ≤ d ≤ 9) then decimal s' (10 * acc + d) else acc
  end.

Definition read (s : string) : Z := decimal s 0.

Lemma main_option_in_last_place_witness :
  main read read 4 (["-q"%string] ++ ["-t"%string]) [] [] [] = None.
Proof.
  eapply (main_option_in_last_place read read 4 ["-q"%string]);
    [reflexivity | apply list_elem_of_here].
Defined.

Lemma main_stops_at_unknown_argument_witness :
  main read read 4 (["-q"%string] ++ "--fast"%string :: ["-l"%string]) [] [] [] = Some 0.
Proof.
  eapply (main_stops_at_unknown_argument read read 4 ["-q"%string]);
    [reflexivity|].
  right. unfold takes_next, flags. simpl.
  rewrite !elem_of_cons, elem_of_nil. intros H.
  repeat (destruct H as [H|H]; [discriminate H|]). done.
Defined.

Lemma main_limit_below_two_witness :
  main read read 4 (["-q"%string] ++ ["-l"%string; "1"%string]) [] [] [] = None ∧
  ∀ t, prime_sieve_ctor (Z.max 1 (read "1"%string)) t = None.
Proof.
  eapply (main_limit_below_two read read 4 ["-q"%string]);
    [reflexivity | reflexivity | apply list_elem_of_here | vm_compute; discriminate].
Defined.

Lemma main_exit_status_witness :
  main read read 8 ["-q"%string; "-l"%string; "100"%string; "-t"%string; "2"%string]
       (round_robin 2 (Z.to_nat (step_bound 100 0))) []
       (round_robin 2 (Z.to_nat (step_bound 100 0)))
  = Some 25.
Proof.
  destruct (main_exit_status read read 8 ["-q"%string; "-l"%string; "100"%string; "-t"%string; "2"%string]
              (mk_options 100 2 0 false false true))
    as (_ & H & _);
    [reflexivity | reflexivity | reflexivity | vm_compute; split; [discriminate | reflexivity]
    | vm_compute; discriminate |].
  exact H.
Defined.

Lemma main_without_quiet_reads_past_the_end_witness :
  main read read 4 ["-l"%string; "100"%string] (round_robin 4 3000) [] (round_robin 4 3000)
  = None ∧
  ∀ checkSieve cPasses,
    run 100 4 (round_robin 4 3000) = Some checkSieve →
    printResults checkSieve false cPasses 4 = None.
Proof.
  apply (main_without_quiet_reads_past_the_end read read 4 ["-l"%string; "100"%string]
           (mk_options 100 0 0 false false false));
    [reflexivity | reflexivity | reflexivity].
Defined.

Lemma main_clamps_requests_witness :
  clamped (mk_options 1 1 1 false false false) ∧
  1 ≤ llUpperLimit (mk_options 1 1 1 false false false) ∧
  1 ≤ cSeconds (mk_options 1 1 1 false false false) ∧
  (1 ≤ 0 ∨ cThreadsRequested (mk_options 1 1 1 false false false) ≠ 0 →
   1 ≤ sieve_threads 0 (mk_options 1 1 1 false false false)).
Proof.
  apply (main_clamps_requests read read 0 ["-t"%string; "0"%string; "-l"%string; "-5"%string; "-s"%string; "x"%string]).
  reflexivity.
Defined.

Lemma main_oneshot_witness :
  sieve_threads 16 (mk_options 0 1 0 false true false) = 1 ∧
  (oneshot_conflict (mk_options 0 1 0 false true false) = true →
   main read read 16 ["-t"%string; "8"%string; "-1"%string; "-p"%string] [] [] [] = Some 0) ∧
  (oneshot_conflict (mk_options 0 1 0 false true false) = false →
   cThreadsRequested (mk_options 0 1 0 false true false) = 1 ∧
   cSecondsRequested (mk_options 0 1 0 false true false) = 0 ∧
   ∀ more', main read read 16 ["-t"%string; "8"%string; "-1"%string; "-p"%string] [] more' []
            = main read read 16 ["-t"%string; "8"%string; "-1"%string; "-p"%string] [] [] []).
Proof.
  apply (main_oneshot read read 16 ["-t"%string; "8"%string; "-1"%string; "-p"%string]); reflexivity.
Defined.

Lemma main_oneshot_skips_next_argument_witness :
  main read read 4 (["-q"%string] ++ "-1"%string :: "-h"%string :: ["-l"%string; "100"%string]) [] [] []
  = main read read 4 (["-q"%string] ++ "-1"%string :: "no option"%string :: ["-l"%string; "100"%string]) [] [] [].
Proof.
  eapply (main_oneshot_skips_next_argument read read 4 ["-q"%string]). reflexivity.
Defined.

Lemma main_without_hardware_threads_witness :
  sieve_threads 0 (mk_options 1000 0 0 false false true) = 0 ∧
  main read read 0 ["-q"%string; "-l"%string; "1000"%string] [] [[2%nat]; []] [1%nat] = Some 0.
Proof.
  apply (main_without_hardware_threads read read 0 ["-q"%string; "-l"%string; "1000"%string]);
    [reflexivity | reflexivity | reflexivity | reflexivity | reflexivity
    | vm_compute; discriminate].
Defined.

(** ** Running a finished sieve again *)

Section Again.
Variables n t : Z.
Hypothesis limit_range : 2 ≤ n < 2 ^ 52.
Hypothesis workers_pos : 1 ≤ t.

(** A vector that keeps the primes and has every cell of [expected_bits] at
    0 still at 0 is [expected_bits]. *)
Lemma bits_ok_expected bits :
  bits_ok n bits → no_reset (expected_bits n) bits → bits = expected_bits n.
Proof.
  intros Hok [Hlen Hcells]. apply list_eq. intros i.
  destruct (Hcells i) as [|Hzero]; [done|].
  destruct (decide (Z.of_nat i < n ≫ 1)) as [Hi|Hi].
  - unfold expected_bits. rewrite list_lookup_fmap, lookup_seqZ_lt by done. simpl.
    destruct (trial_division (2 * (0 + Z.of_nat i) + 1)) eqn:Htd; [|done].
    apply trial_division_prime in Htd.
    replace (2 * (0 + Z.of_nat i) + 1) with (2 * Z.of_nat i + 1) in Htd by lia.
    rewrite (bits_primes _ _ Hok i) in Hzero; [done | | done].
    pose proof (bits_length _ _ Hok). lia.
  - pose proof (bits_length _ _ Hok) as Hl.
    pose proof (expected_bits_length n) as He.
    rewrite (proj2 (lookup_ge_None bits i)) by lia.
    symmetry. apply lookup_ge_None. lia.
Qed.

(** The runners started on a finished sieve are in the state the run
    maintains. *)
Lemma spawn_again_inv sched s :
  run n t sched = Some s → inv n t (spawn s).
Proof.
  intros Hrun. pose proof (run_result n t limit_range workers_pos sched s Hrun) as ->.
  pose proof (ctor_defined n t limit_range) as Hc.
  pose proof (spawn_inv n t limit_range workers_pos _ Hc) as Hinv0.
  revert Hrun. unfold run. rewrite Hc. simpl.
  destruct (exec_inv n t limit_range workers_pos sched _ Hinv0)
    as (st & -> & Hinv & Hnr). simpl.
  destruct (joined st) eqn:Hj; [|done]. intros [= Hst].
  assert (Hbits : Bits (shared st) = expected_bits n) by (by rewrite Hst).
  rewrite Hbits in Hnr. simpl in Hnr.
  split; simpl; [done | done | | apply (inv_pool _ _ _ Hinv0) |].
  - rewrite <- Hbits. apply (inv_bits _ _ _ Hinv).
  - intros tid r Hr.
    destruct (inv_runners _ _ _ Hinv0 tid r Hr) as [Hok Hprog].
    split; [done|]. by eapply progress_no_reset.
Qed.

Lemma run_again sched s sched' :
  run n t sched = Some s →
  ∃ st, exec sched' (spawn s) = Some st ∧ inv n t st ∧ shared st = s.
Proof.
  intros Hrun. pose proof (spawn_again_inv sched s Hrun) as Hinv0.
  pose proof (run_result n t limit_range workers_pos sched s Hrun) as Hs.
  destruct (exec_inv n t limit_range workers_pos sched' _ Hinv0)
    as (st & Hexec & Hinv & Hnr).
  exists st. split_and!; [done | done |].
  destruct (exec_shape _ _ _ Hexec) as (Hsz & Hth & _).
  simpl in Hsz, Hth, Hnr. rewrite Hs in Hnr. simpl in Hnr.
  pose proof (bits_ok_expected _ (inv_bits _ _ _ Hinv) Hnr) as Hb.
  rewrite Hs in Hsz, Hth |- *. simpl in *.
  destruct (shared st); simpl in *. congruence.
Qed.

End Again.

(** X20.  [runSieve()] called again on a sieve whose run has joined changes
    nothing: at every moment of the second run the vector is the one the
    first run left, no access is out of range, and the second run can be
    completed like the first. *)
Theorem runSieve_again_changes_nothing (n t : Z) (sched : list nat) (s : prime_sieve) :
  2 ≤ n < 2 ^ 52 → 1 ≤ t → run n t sched = Some s →
  (∀ sched', ∃ st, exec sched' (spawn s) = Some st ∧ shared st = s) ∧
  (∀ prefix, ∃ rest st,
     exec (prefix ++ rest) (spawn s) = Some st ∧ joined st = true ∧ shared st = s).
Proof.
  intros Hn Ht Hrun. split.
  - intros sched'. destruct (run_again n t Hn Ht sched s sched' Hrun) as (st & ? & _ & ?).
    by exists st.
  - intros prefix.
    destruct (run_again n t Hn Ht sched s prefix Hrun) as (st & Hexec & Hinv & _).
    destruct (exists_schedule n t Hn Ht st Hinv) as (rest & st' & Hrest & Hj).
    destruct (run_again n t Hn Ht sched s (prefix ++ rest) Hrun) as (st'' & Hexec' & _ & Hs).
    exists rest, st''. split_and!; [done | | done].
    rewrite exec_app, Hexec in Hexec'. simpl in Hexec'. congruence.
Qed.

Lemma runSieve_again_changes_nothing_witness :
  ∃ s, run 30 2 (round_robin 2 60) = Some s ∧
       ∃ st, exec (round_robin 2 25) (spawn s) = Some st ∧ shared st = s.
Proof.
  eexists. split; [vm_compute; reflexivity|].
  match goal with |- context [spawn ?s] =>
    destruct (runSieve_again_changes_nothing 30 2 (round_robin 2 60) s
                ltac:(lia) ltac:(lia) ltac:(vm_compute; reflexivity)) as [H _]
  end.
  apply H.
Defined.
